(** * optimesh: the method resolver and the relaxation driver

    A shallow embedding of [src/optimesh/main.py]: the method registry
    [methods], the name normalisation and dispatch of [optimize], and the
    relaxation loop [_optimize].

    Modelling conventions.
    - Python [str] values are [string]s; only ASCII names are considered, so
      [str.lower] is the ASCII lower-casing.
    - numpy [float64] arrays are lists over the real numbers [R].  The one
      non-finite value the code creates itself, [numpy.inf] in [max_step], is
      kept explicit ([ext]).  Real arithmetic is exact where binary64 is
      not.  Where the answer of the code turns on rounding, on overflow or
      underflow, or on a division by zero, the statements carry explicit
      margins and range conditions, and the lines concerned are embedded a
      second time over binary64 numbers (module [Binary64], on Rocq's
      primitive floats) and evaluated there.
    - A two-dimensional array is a list of rows ([list vec]); the rows of one
      array have a common length, as numpy's array type guarantees.  Arrays
      of unequal length raise, as in numpy; the broadcasting of arrays of
      length one is not modelled.  Cell indices are natural numbers.
    - The mesh object is mutated in place by the code, so it lives in an
      explicit [state] threaded through a state-and-exception monad [M];
      calls to the external collaborators are recorded in a trace.  The
      user callback only observes the mesh.
    - [tol] and [max_num_steps] are the positional arguments of [optimize];
      every other parameter of [_optimize] is passed by keyword.
    - The two [while] loops carry fuel; exhausting it is the distinguished
      outcome [OutOfFuel]. *)

From Stdlib Require Import String Ascii List ZArith Reals Lra Lia Bool Arith.
From Stdlib Require Import Permutation.
From Stdlib Require Floats.
Import ListNotations.

(** ** Python strings *)

Module PyStr.

Open Scope string_scope.

(** [c.lower()] on an ASCII character. *)
Definition lower_ascii (c : ascii) : ascii :=
  let n := nat_of_ascii c in
  if ((65 <=? n) && (n <=? 90))%nat then ascii_of_nat (n + 32) else c.

(** [s.lower()] *)
Fixpoint lower (s : string) : string :=
  match s with
  | EmptyString => EmptyString
  | String c s' => String (lower_ascii c) (lower s')
  end.

(** The alternatives of the pattern ["-| |\\(|\\)"]: each matches exactly
    one character. *)
Definition is_delim (c : ascii) : bool :=
  (Ascii.eqb c "-" || Ascii.eqb c " " || Ascii.eqb c "(" || Ascii.eqb c ")")%char.

(** [re.split("-| |\\(|\\)", s)]: the pieces between the matches, empty
    pieces included. *)
Fixpoint re_split (s : string) : list string :=
  match s with
  | EmptyString => [EmptyString]
  | String c s' =>
      if is_delim c then EmptyString :: re_split s'
      else match re_split s' with
           | t :: ts => String c t :: ts
           | [] => [String c EmptyString]
           end
  end.

(** [lambda item: item != ""] *)
Definition nonempty (item : string) : bool := negb (item =? "").

(** [sep.join(items)] *)
Fixpoint join (sep : string) (items : list string) : string :=
  match items with
  | [] => ""
  | [x] => x
  | x :: rest => x ++ sep ++ join sep rest
  end.

(** [s[:n]] *)
Fixpoint slice_to (n : nat) (s : string) : string :=
  match n, s with
  | S n', String c s' => String c (slice_to n' s')
  | _, _ => ""
  end.

(** [s[n:]] *)
Fixpoint slice_from (n : nat) (s : string) : string :=
  match n, s with
  | S n', String _ s' => slice_from n' s'
  | _, _ => s
  end.

End PyStr.

(** ** numpy arrays over the reals *)

Module NumPy.

Open Scope R_scope.

Definition vec := list R.

Fixpoint zip_with {A B C : Type} (g : A -> B -> C) (xs : list A) (ys : list B) : list C :=
  match xs, ys with
  | x :: xs', y :: ys' => g x y :: zip_with g xs' ys'
  | _, _ => []
  end.

Definition vsub (a b : vec) : vec := zip_with Rminus a b.
Definition vadd (a b : vec) : vec := zip_with Rplus a b.
Definition vscale (c : R) (a : vec) : vec := map (Rmult c) a.

(** One row of [numpy.einsum("ij,ij->i", a, b)]. *)
Definition dot (a b : vec) : R := fold_right Rplus 0 (zip_with Rmult a b).

(** [numpy.einsum("ij,ij->i", a, b)] *)
Definition einsum_ij_ij_i (a b : list vec) : list R := zip_with dot a b.

(** The Euclidean length of a row. *)
Definition norm (d : vec) : R := sqrt (dot d d).

Definition Rgtb (x y : R) : bool := if Rgt_dec x y then true else false.
Definition Rltb (x y : R) : bool := if Rlt_dec x y then true else false.

(** Entries of [max_step]: a real or [numpy.inf]. *)
Inductive ext := Fin (r : R) | Inf.

(** [numpy.minimum(a, r)] for a finite [r]. *)
Definition ext_min (a : ext) (r : R) : ext :=
  match a with
  | Inf => Fin r
  | Fin x => Fin (Rmin x r)
  end.

(** [a * c] *)
Definition ext_scale (c : R) (a : ext) : ext :=
  match a with
  | Inf => Inf
  | Fin x => Fin (x * c)
  end.

(** [x > a] *)
Definition gt_ext (x : R) (a : ext) : bool :=
  match a with
  | Inf => false
  | Fin b => Rgtb x b
  end.

(** [a[i] = v] on a list; the caller has checked [i]. *)
Fixpoint update {A : Type} (a : list A) (i : nat) (v : A) : list A :=
  match a, i with
  | [], _ => []
  | _ :: a', O => v :: a'
  | x :: a', S i' => x :: update a' i' v
  end.

(** [a[mask]]: the rows selected by a boolean mask. *)
Fixpoint mask_select {A : Type} (mask : list bool) (a : list A) : list A :=
  match mask, a with
  | true :: mask', x :: a' => x :: mask_select mask' a'
  | false :: mask', _ :: a' => mask_select mask' a'
  | _, _ => []
  end.

(** [a[mask] = vals]: the selected rows are overwritten, in order. *)
Fixpoint mask_assign {A : Type} (mask : list bool) (a vals : list A) : list A :=
  match mask, a with
  | true :: mask', x :: a' =>
      match vals with
      | v :: vals' => v :: mask_assign mask' a' vals'
      | [] => x :: mask_assign mask' a' []
      end
  | false :: mask', x :: a' => x :: mask_assign mask' a' vals
  | _, _ => a
  end.

Definition count_true (mask : list bool) : nat := length (filter (fun b => b) mask).

End NumPy.

Export NumPy.

(** ** Exceptions and outcomes *)

Inductive exn := KeyError | AssertionError | IndexError | ValueError.

(** The two [while] loops of [_optimize]. *)
Inductive loop_id := MainLoop | SurfaceLoop.

Inductive outcome (A : Type) :=
| Ok (a : A)
| Raise (e : exn)
| OutOfFuel (l : loop_id).

Arguments Ok {A} a.
Arguments Raise {A} e.
Arguments OutOfFuel {A} l.

Definition obind {A B : Type} (m : outcome A) (k : A -> outcome B) : outcome B :=
  match m with
  | Ok a => k a
  | Raise e => Raise e
  | OutOfFuel l => OutOfFuel l
  end.

Declare Scope outcome_scope.
Delimit Scope outcome_scope with outcome.
Notation "x <-- m ;; k" := (obind m (fun x => k))
  (at level 61, m at next level, right associativity) : outcome_scope.


(** ** Data model *)

(** A [meshplex.MeshTri]: [mesh.points] and [mesh.cells["points"]]. *)
Record mesh := Mesh {
  points : list vec;
  cells : list (nat * nat * nat)
}.

(** The object passed as [implicit_surface]: its methods [f] and [grad], both
    applied to the whole point array.  [surf_grad] yields one gradient row
    per point (the transpose of numpy's [(dim, n)] result). *)
Record surface := Surface {
  surf_f : list vec -> list R;
  surf_grad : list vec -> list vec
}.

(** The keyword arguments [**kwargs] of [optimize]; [None] is "not given". *)
Record kwargs := Kwargs {
  kw_omega : option R;
  kw_method_name : option string;
  kw_verbose : option bool;
  kw_callback : bool;
  kw_step_filename_format : option string;
  kw_implicit_surface : option surface;
  kw_implicit_surface_tol : option R;
  kw_boundary_step : option (list vec -> list vec)
}.

(** No keyword argument given. *)
Definition no_kwargs : kwargs :=
  Kwargs None None None false None None None None.

(** [kwargs.pop("omega")] *)
Definition pop_omega (kw : kwargs) : kwargs :=
  Kwargs None (kw_method_name kw) (kw_verbose kw) (kw_callback kw)
    (kw_step_filename_format kw) (kw_implicit_surface kw)
    (kw_implicit_surface_tol kw) (kw_boundary_step kw).

(** The modules the registry refers to; each offers [get_new_points]. *)
Inductive strategy :=
| cvt_lloyd
| cvt_block_diagonal
| cvt_full
| cpt_linear_solve
| cpt_fixed_point
| cpt_quasi_newton
| laplace
| odt_fixed_point.

(** The text of the final report: [f"{k} steps"], then [" of " + method_name]
    with the relaxation parameter appended when [omega] is not 1. *)
Record info := Info {
  info_steps : Z;
  info_method : option (string * option R)
}.

(** Calls to the outside world, in the order they happen. *)
Inductive event :=
| print_before (m : mesh)
| print_final (i : info) (m : mesh)
| mesh_save (k : Z) (m : mesh)
| callback_call (k : Z) (m : mesh)
| flip_call (m : mesh)
| get_new_points_call (m : mesh)
| nonlinear_optimization_call (min_method : string) (tol : R) (max_num_steps : Z) (kw : kwargs).

Record state := State {
  st_mesh : mesh;
  st_log : list event
}.

(** What [optimize] hands back: [None] or the pair of [_optimize]. *)
Inductive retval :=
| PyNone
| PyPair (k : Z) (residual : R).

(** The collaborators that are not part of [main.py]. *)
Record services := Services {
  get_new_points_of : strategy -> mesh -> list vec;
  is_boundary_point : mesh -> list bool;
  cell_inradius : mesh -> list R;
  flip_until_delaunay : mesh -> mesh;
  nonlinear_optimization : mesh -> string -> R -> Z -> kwargs -> mesh
}.

(** ** The state-and-exception monad *)

Definition M (A : Type) : Type := state -> outcome A * state.

Definition ret {A : Type} (a : A) : M A := fun s => (Ok a, s).

Definition bind {A B : Type} (m : M A) (k : A -> M B) : M B :=
  fun s =>
    match m s with
    | (Ok a, s') => k a s'
    | (Raise e, s') => (Raise e, s')
    | (OutOfFuel l, s') => (OutOfFuel l, s')
    end.

Definition lift {A : Type} (o : outcome A) : M A := fun s => (o, s).

Definition raise {A : Type} (e : exn) : M A := lift (Raise e).

Definition get_mesh : M mesh := fun s => (Ok (st_mesh s), s).

Definition set_mesh (m : mesh) : M unit := fun s => (Ok tt, State m (st_log s)).

Definition emit (e : event) : M unit :=
  fun s => (Ok tt, State (st_mesh s) (st_log s ++ [e])).

Definition when (b : bool) (m : M unit) : M unit := if b then m else ret tt.

Declare Scope monad_scope.
Delimit Scope monad_scope with monad.
Notation "x <- m ;; k" := (bind m (fun x => k))
  (at level 61, m at next level, right associativity) : monad_scope.
Notation "m ;; k" := (bind m (fun _ => k))
  (at level 61, right associativity) : monad_scope.

(** ** The method registry (lines 9-22) *)

Open Scope string_scope.

Definition methods : list (string * strategy) :=
  [ ("lloyd", cvt_lloyd);
    ("cvt-diaognal", cvt_lloyd);
    ("cvt-block-diagonal", cvt_block_diagonal);
    ("cvt-full", cvt_full);
    ("cpt-linear-solve", cpt_linear_solve);
    ("cpt-fixed-point", cpt_fixed_point);
    ("cpt-quasi-newton", cpt_quasi_newton);
    ("laplace", laplace);
    ("odt-fixed-point", odt_fixed_point) ].

(** [d[key]] on a dictionary literal; [None] stands for [KeyError]. *)
Fixpoint dict_get {V : Type} (d : list (string * V)) (key : string) : option V :=
  match d with
  | [] => None
  | (k, v) :: d' => if (k =? key)%string then Some v else dict_get d' key
  end.

(** The normalisation of lines 32-34. *)
Definition normalize (method : string) : string :=
  PyStr.join "-" (filter PyStr.nonempty (PyStr.re_split (PyStr.lower method))).

Close Scope string_scope.

(** ** The array steps of one iteration *)

Open Scope R_scope.

(** [mesh.cells["points"].reshape(-1)] *)
Definition reshape_flat (c : list (nat * nat * nat)) : list nat :=
  flat_map (fun t => let '(i0, i1, i2) := t in [i0; i1; i2]) c.

(** [numpy.repeat(a, 3)] *)
Definition repeat3 (a : list R) : list R := flat_map (fun r => [r; r; r]) a.

(** [numpy.minimum.at(a, idx, vals)]: unbuffered, so an index that occurs
    several times accumulates; an index past the end raises. *)
Fixpoint minimum_at (a : list ext) (idx : list nat) (vals : list R) : outcome (list ext) :=
  match idx, vals with
  | [], [] => Ok a
  | i :: idx', v :: vals' =>
      match nth_error a i with
      | Some x => minimum_at (update a i (ext_min x v)) idx' vals'
      | None => Raise IndexError
      end
  | _, _ => Raise ValueError
  end.

(** Lines 95-101: the proposal at the boundary points. *)
Definition boundary_handling (boundary_step : option (list vec -> list vec))
    (idx : list bool) (new_points cur : list vec) : outcome (list vec) :=
  match boundary_step with
  | None =>
      if ((length idx =? length cur) && (length idx =? length new_points))%nat
      then Ok (mask_assign idx new_points (mask_select idx cur))
      else Raise IndexError
  | Some g =>
      if (length idx =? length new_points)%nat then
        let moved := g (mask_select idx new_points) in
        if (length moved =? count_true idx)%nat
        then Ok (mask_assign idx new_points moved)
        else Raise ValueError
      else Raise IndexError
  end.

(** Line 103: [diff = omega * (new_points - mesh.points)]. *)
Definition step_vector (omega : R) (new_points cur : list vec) : outcome (list vec) :=
  if (length new_points =? length cur)%nat
  then Ok (zip_with (fun p q => vscale omega (vsub p q)) new_points cur)
  else Raise ValueError.

(** Lines 112-118: [max_step]. *)
Definition max_step_of (m : mesh) (inradius : list R) : outcome (list ext) :=
  (a <-- minimum_at (repeat Inf (length (points m)))
           (reshape_flat (cells m)) (repeat3 inradius) ;;
   Ok (map (ext_scale 0.5) a))%outcome.

(** Lines 120-125: the rows whose length exceeds [max_step] are rescaled. *)
Definition clamp (max_step : list ext) (diff : list vec) : list vec :=
  let step_lengths := map sqrt (einsum_ij_ij_i diff diff) in
  zip_with
    (fun d (p : R * ext) =>
       if gt_ext (fst p) (snd p) then
         match snd p with
         | Fin b => vscale (b / fst p) d
         | Inf => d
         end
       else d)
    diff (combine step_lengths max_step).

(** Lines 130-140: the projection onto the implicit surface. *)
Fixpoint project (sfuel : nat) (surf : surface) (tol : R)
    (new_points : list vec) (fval : list R) : outcome (list vec) :=
  if existsb (fun v => Rgtb (Rabs v) tol) fval then
    match sfuel with
    | O => OutOfFuel SurfaceLoop
    | S sfuel' =>
        let grad := surf_grad surf new_points in
        let grad_dot_grad := einsum_ij_ij_i grad grad in
        if ((length fval =? length grad) && (length grad =? length new_points))%nat then
          let new_points' :=
            zip_with vsub new_points
              (zip_with (fun g c => vscale c g) grad (zip_with Rdiv fval grad_dot_grad)) in
          project sfuel' surf tol new_points' (surf_f surf new_points')
        else Raise ValueError
    end
  else Ok new_points.

(** [numpy.max(a)] *)
Definition np_max (a : list R) : outcome R :=
  match a with
  | [] => Raise ValueError
  | x :: rest => Ok (fold_left Rmax rest x)
  end.

(** The truth value of [step_filename_format]. *)
Definition truthy (s : option string) : bool :=
  match s with
  | Some t => PyStr.nonempty t
  | None => false
  end.

(** The local variables that outlive one pass through the loop body. *)
Record locals := Locals {
  diff : list vec;
  diff_norm_2 : list R;
  is_final : bool
}.

(** The defaults of the keyword parameters of [_optimize] (lines 59-66). *)
Definition arg_omega (kw : kwargs) : R :=
  match kw_omega kw with Some w => w | None => 1.0 end.

Definition arg_verbose (kw : kwargs) : bool :=
  match kw_verbose kw with Some b => b | None => false end.

Definition arg_implicit_surface_tol (kw : kwargs) : R :=
  match kw_implicit_surface_tol kw with Some t => t | None => 1.0e-10 end.

(** ** The driver and the entry point *)

Section Driver.

Context (E : services).

(** [mesh.flip_until_delaunay()] *)
Definition flip : M unit :=
  (m <- get_mesh ;;
   emit (flip_call m) ;;
   set_mesh (flip_until_delaunay E m))%monad.

Section Optimize.

Variable get_new_points : mesh -> list vec.
Variable tol : R.
Variable max_num_steps : Z.
Variable kw : kwargs.

(** Lines 95-140, the array arithmetic of the body: from the proposal to the
    clamped [diff] and the projected [new_points]. *)
Definition array_steps (sfuel : nat) (m : mesh) (new_points : list vec)
    (idx : list bool) (inradius : list R) : outcome (list vec * list vec) :=
  (new_points <-- boundary_handling (kw_boundary_step kw) idx new_points (points m) ;;
   diff <-- step_vector (arg_omega kw) new_points (points m) ;;
   max_step <-- max_step_of m inradius ;;
   let diff := clamp max_step diff in
   let new_points := zip_with vadd (points m) diff in
   new_points <-- match kw_implicit_surface kw with
                  | None => Ok new_points
                  | Some surf =>
                      project sfuel surf (arg_implicit_surface_tol kw) new_points
                        (surf_f surf new_points)
                  end ;;
   Ok (diff, new_points))%outcome.

(** Lines 89-170: the body of [while True]. *)
Definition iteration (sfuel : nat) (k : Z) : M locals :=
  (mesh0 <- get_mesh ;;
   emit (get_new_points_call mesh0) ;;
   r <- lift (array_steps sfuel mesh0 (get_new_points mesh0)
                (is_boundary_point E mesh0) (cell_inradius E mesh0)) ;;
   let diff := fst r in
   set_mesh (Mesh (snd r) (cells mesh0)) ;;
   flip ;;
   let diff_norm_2 := einsum_ij_ij_i diff diff in
   let is_final :=
     forallb (fun x => Rltb x (tol ^ 2)) diff_norm_2 || (max_num_steps <=? k)%Z in
   m <- get_mesh ;;
   when (is_final && arg_verbose kw)
     (emit (print_final
              (Info k (match kw_method_name kw with
                       | None => None
                       | Some n =>
                           Some (n, if Rgtb (Rabs (arg_omega kw - 1.0)) 1.0e-10
                                    then Some (arg_omega kw) else None)
                       end)) m)) ;;
   when (truthy (kw_step_filename_format kw)) (emit (mesh_save k m)) ;;
   when (kw_callback kw) (emit (callback_call k m)) ;;
   ret (Locals diff diff_norm_2 is_final))%monad.

(** Lines 88-173: [while True: k += 1; ...; if is_final: break]. *)
Fixpoint while_true (fuel sfuel : nat) (k : Z) : M (Z * locals) :=
  match fuel with
  | O => lift (OutOfFuel MainLoop)
  | S fuel' =>
      let k := (k + 1)%Z in
      (l <- iteration sfuel k ;;
       if is_final l then ret (k, l) else while_true fuel' sfuel k)%monad
  end.

(** Lines 54-175. *)
Definition _optimize (fuel sfuel : nat) : M (Z * R) :=
  let k := 0%Z in
  (m <- get_mesh ;;
   when (arg_verbose kw) (emit (print_before m)) ;;
   when (truthy (kw_step_filename_format kw)) (emit (mesh_save k m)) ;;
   when (kw_callback kw) (emit (callback_call k m)) ;;
   flip ;;
   r <- while_true fuel sfuel k ;;
   residual <- lift (np_max (map sqrt (diff_norm_2 (snd r)))) ;;
   ret (fst r, residual))%monad.

End Optimize.

(** Lines 38-43: the branch that hands over to [odt.nonlinear_optimization]. *)
Definition odt_branch (min_method : string) (tol : R) (max_num_steps : Z)
    (kw : kwargs) : M retval :=
  (kw' <- match kw_omega kw with
          | Some w => if Req_dec_T w 1.0 then ret (pop_omega kw) else raise AssertionError
          | None => ret kw
          end ;;
   m <- get_mesh ;;
   emit (nonlinear_optimization_call min_method tol max_num_steps kw') ;;
   set_mesh (nonlinear_optimization E m min_method tol max_num_steps kw') ;;
   ret PyNone)%monad.

(** Lines 29-45.  [tol] and [max_num_steps] are the positional [*args]. *)
Definition optimize (fuel sfuel : nat) (method : string) (tol : R)
    (max_num_steps : Z) (kw : kwargs) : M retval :=
  let normalized_method := normalize method in
  if (PyStr.slice_to 3 normalized_method =? "odt")%string
     && negb (PyStr.slice_from 4 normalized_method =? "fixed-point")%string
  then
    let min_method := PyStr.slice_from 4 normalized_method in
    odt_branch min_method tol max_num_steps kw
  else
    match dict_get methods normalized_method with
    | None => raise KeyError
    | Some s =>
        (r <- _optimize (get_new_points_of E s) tol max_num_steps kw fuel sfuel ;;
         ret (PyPair (fst r) (snd r)))%monad
    end.

End Driver.

(** ** Vocabulary of the statements *)

(** Vertex [i] is a corner of the cell [c]. *)
Definition incident (i : nat) (c : nat * nat * nat) : Prop :=
  let '(i0, i1, i2) := c in i = i0 \/ i = i1 \/ i = i2.

(** [r] is the inradius of some cell incident to vertex [i]. *)
Definition incident_inradius (m : mesh) (inradius : list R) (i : nat) (r : R) : Prop :=
  exists j c,
    nth_error (cells m) j = Some c /\ nth_error inradius j = Some r /\ incident i c.

(** [b] is half the minimum incircle radius over the cells incident to vertex
    [i], and infinite when no cell is incident to it. *)
Definition half_min_inradius (m : mesh) (inradius : list R) (i : nat) (b : ext) : Prop :=
  match b with
  | Inf => forall r, ~ incident_inradius m inradius i r
  | Fin x =>
      (exists r, incident_inradius m inradius i r /\ x = r * 0.5)
      /\ (forall r, incident_inradius m inradius i r -> x <= r * 0.5)
  end.

(** Every cell refers to existing vertices. *)
Definition valid_cells (m : mesh) : Prop :=
  Forall (fun i => (i < length (points m))%nat) (reshape_flat (cells m)).

(** The collaborators answer with arrays of the shapes the driver expects. *)
Definition well_shaped (E : services) (get_new_points : mesh -> list vec)
    (kw : kwargs) (m : mesh) : Prop :=
  length (get_new_points m) = length (points m)
  /\ length (is_boundary_point E m) = length (points m)
  /\ length (cell_inradius E m) = length (cells m)
  /\ valid_cells m
  /\ match kw_boundary_step kw with
     | None => True
     | Some g =>
         length (g (mask_select (is_boundary_point E m) (get_new_points m)))
         = count_true (is_boundary_point E m)
     end.

(** The collaborators are well shaped on every valid mesh and the flips keep
    a mesh valid. *)
Definition well_behaved (E : services) (get_new_points : mesh -> list vec)
    (kw : kwargs) : Prop :=
  forall m, valid_cells m ->
    well_shaped E get_new_points kw m
    /\ valid_cells (flip_until_delaunay E m)
    /\ length (points (flip_until_delaunay E m)) = length (points m).

(** The number of passes through the body of the main loop that a trace
    records: each pass starts by asking the strategy for new points. *)
Definition is_iteration_start (e : event) : bool :=
  match e with
  | get_new_points_call _ => true
  | _ => false
  end.

Definition iterations_logged (log : list event) : nat :=
  length (filter is_iteration_start log).

(** [run k st k' l st']: started with counter [k] in state [st], the main
    loop leaves with counter [k'], the locals [l] of its last pass and the
    state [st']; every pass before the last was not final. *)
Inductive run (E : services) (get_new_points : mesh -> list vec) (tol : R)
    (max_num_steps : Z) (kw : kwargs) (sfuel : nat) :
    Z -> state -> Z -> locals -> state -> Prop :=
| run_last k st l st' :
    iteration E get_new_points tol max_num_steps kw sfuel (k + 1) st = (Ok l, st') ->
    is_final l = true ->
    run E get_new_points tol max_num_steps kw sfuel k st (k + 1) l st'
| run_more k st l1 st1 k' l st' :
    iteration E get_new_points tol max_num_steps kw sfuel (k + 1) st = (Ok l1, st1) ->
    is_final l1 = false ->
    run E get_new_points tol max_num_steps kw sfuel (k + 1) st1 k' l st' ->
    run E get_new_points tol max_num_steps kw sfuel k st k' l st'.

(** [r] is the largest entry of [a]. *)
Definition is_max (r : R) (a : list R) : Prop :=
  In r a /\ forall x, In x a -> x <= r.

(** One correction pass of the projection, as the design describes it: every
    point moves against its gradient, scaled by the field value over the
    squared gradient norm. *)
Definition newton_pass (surf : surface) (pts : list vec) : list vec :=
  zip_with
    (fun p (gv : vec * R) => vsub p (vscale (snd gv / dot (fst gv) (fst gv)) (fst gv)))
    pts (combine (surf_grad surf pts) (surf_f surf pts)).


(** The test of line 132, [numpy.any(numpy.abs(fval) > tol)], on the field
    values of the points [pts]. *)
Definition off_surface (surf : surface) (tol : R) (pts : list vec) : bool :=
  existsb (fun v => Rgtb (Rabs v) tol) (surf_f surf pts).


(** What [optimize] does with the events it adds to a trace. *)
Definition report_events (kw : kwargs) (k : Z) (fin : bool) (m : mesh) : list event :=
  (if fin && arg_verbose kw
   then [print_final
           (Info k (match kw_method_name kw with
                    | None => None
                    | Some n =>
                        Some (n, if Rgtb (Rabs (arg_omega kw - 1.0)) 1.0e-10
                                 then Some (arg_omega kw) else None)
                    end)) m]
   else [])
  ++ (if truthy (kw_step_filename_format kw) then [mesh_save k m] else [])
  ++ (if kw_callback kw then [callback_call k m] else []).

(** The words of a name as the design describes them: the maximal runs of
    characters other than hyphen, space and parentheses, read left to right
    with the run [cur] in progress. *)
Fixpoint words_from (cur s : string) : list string :=
  match s with
  | EmptyString => if PyStr.nonempty cur then [cur] else []
  | String c s' =>
      if PyStr.is_delim c then
        if PyStr.nonempty cur then cur :: words_from EmptyString s'
        else words_from EmptyString s'
      else words_from (cur ++ String c EmptyString)%string s'
  end.

(** The first piece of a split, extended to the left by [cur]. *)
Definition prepend (cur : string) (pieces : list string) : list string :=
  match pieces with
  | t :: ts => (cur ++ t)%string :: ts
  | [] => [cur]
  end.

(** The normal form in the design's words: the words of the lower-cased
    name, joined by hyphens. *)
Definition normalize_spec (method : string) : string :=
  PyStr.join "-" (words_from EmptyString (PyStr.lower method)).

(** All characters of [s] satisfy [P]. *)
Fixpoint all_chars (P : ascii -> bool) (s : string) : bool :=
  match s with
  | EmptyString => true
  | String c s' => P c && all_chars P s'
  end.

(** A character that a normal form keeps as it is. *)
Definition plain (c : ascii) : bool :=
  negb (PyStr.is_delim c) && Ascii.eqb (PyStr.lower_ascii c) c.

(** Every vertex is a boundary point or is proposed where it already is. *)
Definition at_rest (E : services) (get_new_points : mesh -> list vec) (m : mesh) : Prop :=
  forall i, (i < length (points m))%nat ->
    nth_error (is_boundary_point E m) i = Some true
    \/ nth_error (get_new_points m) i = nth_error (points m) i.

(** The values that [minimum_at] folds into entry [i]. *)
Fixpoint hits (i : nat) (idx : list nat) (vals : list R) : list R :=
  match idx, vals with
  | j :: idx', v :: vals' =>
      if (j =? i)%nat then v :: hits i idx' vals' else hits i idx' vals'
  | _, _ => []
  end.

(** The row that [clamp] leaves at a vertex with step [d] and bound [b]. *)
Definition clamp_row (b : ext) (d : vec) : vec :=
  if gt_ext (norm d) b then
    match b with
    | Fin x => vscale (x / norm d) d
    | Inf => d
    end
  else d.

(** The state in which the main loop starts: lines 70-85 have reported,
    saved, called back and flipped. *)
Definition prelude_state (E : services) (kw : kwargs) (st : state) : state :=
  let m := st_mesh st in
  State (flip_until_delaunay E m)
    (st_log st
     ++ (if arg_verbose kw then [print_before m] else [])
     ++ (if truthy (kw_step_filename_format kw) then [mesh_save 0 m] else [])
     ++ (if kw_callback kw then [callback_call 0 m] else [])
     ++ [flip_call m]).

(** ** Concrete meshes and collaborators *)

(** The unit square cut into two cells; all four vertices are on the
    boundary. *)
Definition unit_square : mesh :=
  Mesh [[0; 0]; [1; 0]; [1; 1]; [0; 1]] [(0, 1, 2); (0, 2, 3)]%nat.

(** One triangle in space with a corner above the plane [z = 0]. *)
Definition tilted_triangle : mesh :=
  Mesh [[0; 0; 1]; [1; 0; 0]; [0; 1; 0]] [(0, 1, 2)]%nat.

(** The plane [z = 0] as an implicit surface: [f(x, y, z) = z]. *)
Definition plane_z : surface :=
  Surface (map (fun p => nth 2 p 0)) (map (fun _ => [0; 0; 1])).

(** A mesh service for meshes without interior vertices: every vertex is a
    boundary point, every cell is given the inradius [r], flips change
    nothing; the strategies propose the points [proposal m]. *)
Definition closed_services (proposal : mesh -> list vec) (r : R) : services :=
  Services
    (fun _ m => proposal m)
    (fun m => map (fun _ => true) (points m))
    (fun m => map (fun _ => r) (cells m))
    (fun m => m)
    (fun m _ _ _ _ => m).

(** As [closed_services], but no vertex is a boundary point. *)
Definition open_services (proposal : mesh -> list vec) (r : R) : services :=
  Services
    (fun _ m => proposal m)
    (fun m => map (fun _ => false) (points m))
    (fun m => map (fun _ => r) (cells m))
    (fun m => m)
    (fun m _ _ _ _ => m).

Definition initial (m : mesh) : state := State m [].

(** A strategy that proposes every vertex one unit further along the first
    axis. *)
Definition push_right (m : mesh) : list vec :=
  map (fun p => vadd p [1; 0]) (points m).

(** ** The remaining entry points *)

(** Lines 25-26: [get_new_points(mesh, method)].  The registry is indexed
    with the lower-cased name, then the strategy found is asked. *)
Definition get_new_points (E : services) (method : string) : M (list vec) :=
  match dict_get methods (PyStr.lower method) with
  | None => raise KeyError
  | Some s =>
      (m <- get_mesh ;;
       emit (get_new_points_call m) ;;
       ret (get_new_points_of E s m))%monad
  end.

(** Lines 48-51: [optimize_points_cells].  A mesh object is built from the
    two arrays, [optimize] works on it in place, and the arrays of the mesh
    are handed back; what [optimize] returns is dropped.  The new mesh is
    private to the call, so only the trace is threaded. *)
Definition optimize_points_cells (E : services) (fuel sfuel : nat) (X : list vec)
    (c : list (nat * nat * nat)) (method : string) (tol : R) (max_num_steps : Z)
    (kw : kwargs) (log : list event)
    : outcome (list vec * list (nat * nat * nat)) * list event :=
  match optimize E fuel sfuel method tol max_num_steps kw (State (Mesh X c) log) with
  | (Ok _, st') => (Ok (points (st_mesh st'), cells (st_mesh st')), st_log st')
  | (Raise e, st') => (Raise e, st_log st')
  | (OutOfFuel l, st') => (OutOfFuel l, st_log st')
  end.

(** ** Further vocabulary *)

(** An event without the mesh it carries. *)
Inductive tag :=
| t_print_before
| t_print_final (k : Z)
| t_save (k : Z)
| t_callback (k : Z)
| t_flip
| t_get_new_points
| t_nonlinear_optimization (min_method : string).

Definition tag_of (e : event) : tag :=
  match e with
  | print_before _ => t_print_before
  | print_final i _ => t_print_final (info_steps i)
  | mesh_save k _ => t_save k
  | callback_call k _ => t_callback k
  | flip_call _ => t_flip
  | get_new_points_call _ => t_get_new_points
  | nonlinear_optimization_call min_method _ _ _ => t_nonlinear_optimization min_method
  end.

(** What lines 70-85 add to the trace. *)
Definition prelude_tags (kw : kwargs) : list tag :=
  (if arg_verbose kw then [t_print_before] else [])
  ++ (if truthy (kw_step_filename_format kw) then [t_save 0] else [])
  ++ (if kw_callback kw then [t_callback 0] else [])
  ++ [t_flip].

(** What pass [k] of the loop adds to the trace; [fin] tells the last pass. *)
Definition pass_tags (kw : kwargs) (k : Z) (fin : bool) : list tag :=
  [t_get_new_points; t_flip]
  ++ (if fin && arg_verbose kw then [t_print_final k] else [])
  ++ (if truthy (kw_step_filename_format kw) then [t_save k] else [])
  ++ (if kw_callback kw then [t_callback k] else []).

(** The passes [k0 + 1], ..., [k0 + n], the last of them final. *)
Fixpoint passes_tags (kw : kwargs) (k0 : Z) (n : nat) : list tag :=
  match n with
  | O => []
  | S O => pass_tags kw (k0 + 1) true
  | S n' => pass_tags kw (k0 + 1) false ++ passes_tags kw (k0 + 1) n'
  end.

(** The pass numbers handed to the callback, and those of the snapshots, in
    the order of the trace. *)
Definition callbacks_of (tags : list tag) : list Z :=
  flat_map (fun t => match t with t_callback i => [i] | _ => [] end) tags.

Definition saves_of (tags : list tag) : list Z :=
  flat_map (fun t => match t with t_save i => [i] | _ => [] end) tags.

(** The character [c] occurs in [s]. *)
Fixpoint has_char (c : ascii) (s : string) : bool :=
  match s with
  | EmptyString => false
  | String c' s' => Ascii.eqb c c' || has_char c s'
  end.


(** ** The arithmetic of the loop body in binary64

    The lines of [_optimize] whose result depends on how numbers are
    rounded, over IEEE 754 binary64 with rounding to nearest even, which is
    what a [numpy.float64] is.  A row is summed from the left, as einsum
    does for the two or three coordinates of a point. *)

Module Binary64.

Import Floats.
#[local] Open Scope float_scope.

Definition row := list float.

(** One row of [numpy.einsum("ij,ij->i", a, b)]. *)
Definition dot (a b : row) : float := fold_left add (zip_with mul a b) 0.

(** [numpy.einsum("ij,ij->i", a, b)] *)
Definition einsum_ij_ij_i (a b : list row) : list float := zip_with dot a b.

(** Line 120: [step_lengths].  Line 175 takes the same square roots, of
    [diff_norm_2]. *)
Definition step_lengths (diff : list row) : list float :=
  map sqrt (einsum_ij_ij_i diff diff).

(** Lines 124-125: the rows with [step_lengths > max_step] are multiplied by
    [max_step / step_lengths]. *)
Definition clamp (max_step : list float) (diff : list row) : list row :=
  zip_with
    (fun d (p : float * float) =>
       if snd p <? fst p then map (fun x => x * (snd p / fst p)) d else d)
    diff (combine (step_lengths diff) max_step).

(** Line 149, the tolerance test [numpy.all(diff_norm_2 < tol ** 2)], with
    the product [tol * tol] for the square.  What Python computes for
    [tol ** 2] can differ from the product in the last place, and where the
    product overflows Python raises [OverflowError]; the two agree at the
    tolerances [0.1], [7.3], [1e-150] and [1e-200]. *)
Definition all_below_tol (tol : float) (diff_norm_2 : list float) : bool :=
  forallb (fun x => x <? tol * tol) diff_norm_2.

(** Line 132: [numpy.any(numpy.abs(fval) > tol)]. *)
Definition off_surface (tol : float) (fval : list float) : bool :=
  existsb (fun v => tol <? abs v) fval.

(** Lines 134-138: one pass of the projection, given the gradients (one row
    per point) and the field values. *)
Definition newton_pass (new_points grad : list row) (fval : list float) : list row :=
  let grad_dot_grad := einsum_ij_ij_i grad grad in
  zip_with (zip_with sub) new_points
    (zip_with (fun g c => map (fun x => x * c) g) grad (zip_with div fval grad_dot_grad)).


End Binary64.

(** * Properties *)

(** ** The method resolver *)

Section Resolver.

Context (E : services).
Variables (fuel sfuel : nat) (tol : R) (max_num_steps : Z) (kw : kwargs).

Open Scope string_scope.

Lemma dict_get_In {V : Type} (d : list (string * V)) (key : string) (v : V) :
  dict_get d key = Some v -> In (key, v) d.
Proof.
  induction d as [|[k w] d IH]; simpl; [discriminate|].
  destruct (String.eqb_spec k key) as [->|_].
  - intros [= ->]. now left.
  - intros H. right. auto.
Qed.

Lemma pop_omega_absent (kw0 : kwargs) : kw_omega kw0 = None -> pop_omega kw0 = kw0.
Proof. destruct kw0; simpl; intros ->; reflexivity. Qed.

(** The branch condition of line 37, for a name that carries the prefix. *)
Lemma odt_condition (nm rest : string) :
  nm = "odt-" ++ rest -> rest <> "fixed-point" ->
  (PyStr.slice_to 3 nm =? "odt") && negb (PyStr.slice_from 4 nm =? "fixed-point") = true
  /\ PyStr.slice_from 4 nm = rest.
Proof.
  intros -> Hrest. simpl. split; [|reflexivity].
  destruct (String.eqb_spec rest "fixed-point"); [contradiction|reflexivity].
Qed.

(** No key of the registry takes the branch of line 37. *)
Lemma registry_names_reach_driver (nm : string) (s : strategy) :
  dict_get methods nm = Some s ->
  (PyStr.slice_to 3 nm =? "odt") && negb (PyStr.slice_from 4 nm =? "fixed-point") = false.
Proof.
  intros H. apply dict_get_In in H. simpl in H.
  repeat (destruct H as [H|H]; [injection H as <- <-; reflexivity|]).
  contradiction.
Qed.

(** What the hand-over branch does, outcome by outcome. *)
Lemma odt_branch_eq (min_method : string) (st : state) :
  odt_branch E min_method tol max_num_steps kw st =
  match kw_omega kw with
  | Some w =>
      if Req_dec_T w 1.0 then
        (Ok PyNone,
         State (nonlinear_optimization E (st_mesh st) min_method tol max_num_steps (pop_omega kw))
           (st_log st ++ [nonlinear_optimization_call min_method tol max_num_steps (pop_omega kw)]))
      else (Raise AssertionError, st)
  | None =>
      (Ok PyNone,
       State (nonlinear_optimization E (st_mesh st) min_method tol max_num_steps kw)
         (st_log st ++ [nonlinear_optimization_call min_method tol max_num_steps kw]))
  end.
Proof.
  unfold odt_branch, bind, raise, lift, ret, get_mesh, emit, set_mesh.
  destruct (kw_omega kw) as [w|]; [destruct (Req_dec_T w 1.0)|]; reflexivity.
Qed.

Lemma odt_branch_no_iteration (min_method : string) (st : state) :
  iterations_logged (st_log (snd (odt_branch E min_method tol max_num_steps kw st)))
  = iterations_logged (st_log st).
Proof.
  rewrite odt_branch_eq. unfold iterations_logged.
  destruct (kw_omega kw) as [w|]; [destruct (Req_dec_T w 1.0)|]; simpl;
    rewrite ?filter_app, ?length_app; simpl; lia.
Qed.

(** C7. A name whose normalised form is ["odt-"] followed by something other
    than ["fixed-point"] is handed to the external optimiser with that
    remainder as its method selector, and no pass of the relaxation loop
    runs; every name found in the registry, ["odt-fixed-point"] included,
    is run by the relaxation driver with the strategy registered for it. *)
Theorem odt_routing (method : string) (st : state) :
  (forall rest,
      normalize method = "odt-" ++ rest -> rest <> "fixed-point" ->
      optimize E fuel sfuel method tol max_num_steps kw st
      = odt_branch E rest tol max_num_steps kw st
      /\ iterations_logged
           (st_log (snd (optimize E fuel sfuel method tol max_num_steps kw st)))
         = iterations_logged (st_log st)
      /\ (kw_omega kw = None ->
          optimize E fuel sfuel method tol max_num_steps kw st
          = (Ok PyNone,
             State (nonlinear_optimization E (st_mesh st) rest tol max_num_steps kw)
               (st_log st ++ [nonlinear_optimization_call rest tol max_num_steps kw])))
      /\ (kw_omega kw = Some 1.0%R ->
          optimize E fuel sfuel method tol max_num_steps kw st
          = (Ok PyNone,
             State (nonlinear_optimization E (st_mesh st) rest tol max_num_steps
                      (pop_omega kw))
               (st_log st
                ++ [nonlinear_optimization_call rest tol max_num_steps (pop_omega kw)]))))
  /\ (forall s,
        dict_get methods (normalize method) = Some s ->
        optimize E fuel sfuel method tol max_num_steps kw st
        = bind (_optimize E (get_new_points_of E s) tol max_num_steps kw fuel sfuel)
            (fun r => ret (PyPair (fst r) (snd r))) st)
  /\ dict_get methods "odt-fixed-point" = Some odt_fixed_point.
Proof.
  split; [|split; [|reflexivity]].
  - intros rest Hnm Hrest.
    destruct (odt_condition _ _ Hnm Hrest) as [Hc Hs].
    assert (Heq : optimize E fuel sfuel method tol max_num_steps kw st
                  = odt_branch E rest tol max_num_steps kw st).
    { unfold optimize. rewrite Hc, Hs. reflexivity. }
    rewrite Heq. repeat split.
    + apply odt_branch_no_iteration.
    + intros Hom. rewrite odt_branch_eq, Hom. reflexivity.
    + intros Hom. rewrite odt_branch_eq, Hom.
      destruct (Req_dec_T 1.0 1.0); [reflexivity|contradiction].
  - intros s Hs. unfold optimize.
    rewrite (registry_names_reach_driver _ _ Hs), Hs. reflexivity.
Qed.


(** C10. The registry has the key ["cvt-diaognal"], bound to the Lloyd
    strategy, and no key ["cvt-diagonal"]: the misspelt name runs the
    driver with Lloyd's [get_new_points], while ["cvt-diagonal"] and
    ["CVT (diagonal)"] raise [KeyError] with the mesh and trace untouched. *)
Theorem registry_misspelling (st : state) :
  dict_get methods "cvt-diaognal" = Some cvt_lloyd
  /\ dict_get methods "cvt-diagonal" = None
  /\ optimize E fuel sfuel "cvt-diaognal" tol max_num_steps kw st
     = bind (_optimize E (get_new_points_of E cvt_lloyd) tol max_num_steps kw fuel sfuel)
         (fun r => ret (PyPair (fst r) (snd r))) st
  /\ optimize E fuel sfuel "cvt-diagonal" tol max_num_steps kw st = (Raise KeyError, st)
  /\ normalize "CVT (diagonal)" = "cvt-diagonal"
  /\ optimize E fuel sfuel "CVT (diagonal)" tol max_num_steps kw st = (Raise KeyError, st).
Proof. repeat split. Qed.

End Resolver.

(** ** Lists and arrays *)

Section ListFacts.

Context {A B C : Type}.

Lemma zip_with_length (g : A -> B -> C) (xs : list A) (ys : list B) :
  length xs = length ys -> length (zip_with g xs ys) = length xs.
Proof.
  revert ys. induction xs as [|x xs IH]; intros [|y ys]; simpl; try congruence.
  intros [= H]. now rewrite IH.
Qed.

Lemma nth_error_zip_with (g : A -> B -> C) (xs : list A) (ys : list B) (i : nat) :
  nth_error (zip_with g xs ys) i =
  match nth_error xs i, nth_error ys i with
  | Some x, Some y => Some (g x y)
  | _, _ => None
  end.
Proof.
  revert ys i. induction xs as [|x xs IH]; intros [|y ys] [|i]; simpl; try reflexivity.
  - now destruct (nth_error xs i).
  - apply IH.
Qed.

Lemma zip_with_same (g : A -> A -> C) (xs : list A) :
  zip_with g xs xs = map (fun x => g x x) xs.
Proof. induction xs as [|x xs IH]; simpl; [reflexivity|now rewrite IH]. Qed.

Lemma combine_zip_with (xs : list A) (ys : list B) :
  combine xs ys = zip_with pair xs ys.
Proof.
  revert ys. induction xs as [|x xs IH]; intros [|y ys]; simpl; try reflexivity.
  now rewrite IH.
Qed.

Lemma mask_assign_length (mask : list bool) (a vals : list A) :
  length (mask_assign mask a vals) = length a.
Proof.
  revert a vals. induction mask as [|[] mask IH]; intros [|x a] vals; simpl; try reflexivity.
  - destruct vals; simpl; now rewrite IH.
  - now rewrite IH.
Qed.

Lemma nth_error_mask_assign_select (mask : list bool) (a cur : list A) (i : nat) :
  length mask = length a -> length mask = length cur ->
  nth_error (mask_assign mask a (mask_select mask cur)) i =
  match nth_error mask i with
  | Some true => nth_error cur i
  | _ => nth_error a i
  end.
Proof.
  revert a cur i.
  induction mask as [|b mask IH]; intros [|x a] [|y cur] i; simpl; try discriminate.
  - intros _ _. now destruct i.
  - intros [= Ha] [= Hc]. destruct b, i; simpl; try reflexivity; now apply IH.
Qed.

Lemma update_length (a : list A) (i : nat) (v : A) : length (update a i v) = length a.
Proof.
  revert i. induction a as [|x a IH]; intros [|i]; simpl; try reflexivity.
  now rewrite IH.
Qed.

Lemma nth_error_update (a : list A) (i j : nat) (v : A) :
  (i < length a)%nat ->
  nth_error (update a i v) j = if (j =? i)%nat then Some v else nth_error a j.
Proof.
  revert i j. induction a as [|x a IH]; intros i j; simpl; [lia|].
  destruct i, j; simpl; intros H; try reflexivity.
  apply IH. lia.
Qed.

End ListFacts.

Open Scope R_scope.

(** ** Rows *)

Lemma dot_vscale (c : R) (d : vec) : dot (vscale c d) (vscale c d) = c * c * dot d d.
Proof.
  unfold dot, vscale. induction d as [|x d IH]; simpl; [ring|].
  rewrite IH. ring.
Qed.

Lemma dot_self_nonneg (d : vec) : 0 <= dot d d.
Proof.
  unfold dot. induction d as [|x d IH]; simpl; [lra|]. nra.
Qed.

Lemma norm_nonneg (d : vec) : 0 <= norm d.
Proof. apply sqrt_pos. Qed.

Lemma norm_vscale (c : R) (d : vec) : 0 <= c -> norm (vscale c d) = c * norm d.
Proof.
  intros Hc. unfold norm. rewrite dot_vscale.
  rewrite sqrt_mult; [|nra|apply dot_self_nonneg].
  now rewrite sqrt_square.
Qed.

(** A row of the form [w * (p - p)] does not move [p], whatever it is
    rescaled by. *)
Lemma vadd_frozen (c w : R) (p : vec) : vadd p (vscale c (vscale w (vsub p p))) = p.
Proof.
  unfold vadd, vscale, vsub. induction p as [|x p IH]; simpl; [reflexivity|].
  rewrite IH. f_equal. ring.
Qed.

Lemma dot_frozen (w : R) (p : vec) :
  dot (vscale w (vsub p p)) (vscale w (vsub p p)) = 0.
Proof.
  rewrite dot_vscale. unfold dot, vsub. induction p as [|x p IH]; simpl; [ring|].
  replace (w * w * ((x - x) * (x - x) + fold_right Rplus 0 (zip_with Rmult (zip_with Rminus p p) (zip_with Rminus p p))))
    with (w * w * fold_right Rplus 0 (zip_with Rmult (zip_with Rminus p p) (zip_with Rminus p p))) by ring.
  exact IH.
Qed.

Lemma Rgtb_true (x y : R) : x > y -> Rgtb x y = true.
Proof. intros H. unfold Rgtb. now destruct (Rgt_dec x y). Qed.

Lemma Rgtb_false (x y : R) : x <= y -> Rgtb x y = false.
Proof. intros H. unfold Rgtb. destruct (Rgt_dec x y); [lra|reflexivity]. Qed.

Lemma Rltb_true (x y : R) : x < y -> Rltb x y = true.
Proof. intros H. unfold Rltb. now destruct (Rlt_dec x y). Qed.

Lemma Rltb_false (x y : R) : y <= x -> Rltb x y = false.
Proof. intros H. unfold Rltb. destruct (Rlt_dec x y); [lra|reflexivity]. Qed.


Lemma Rgtb_spec (x y : R) : Rgtb x y = true <-> x > y.
Proof. unfold Rgtb. destruct (Rgt_dec x y); split; intros; auto; discriminate. Qed.

(** The three cases of the clamp on one row. *)
Lemma clamp_row_cases (b : ext) (d : vec) :
  match b with
  | Inf => clamp_row b d = d
  | Fin x =>
      (norm d > x -> clamp_row b d = vscale (x / norm d) d)
      /\ (norm d <= x -> clamp_row b d = d)
  end.
Proof.
  unfold clamp_row. destruct b as [x|]; simpl; [|reflexivity].
  split; intros H; [now rewrite Rgtb_true|now rewrite Rgtb_false].
Qed.



Lemma vscale_1 (d : vec) : vscale 1 d = d.
Proof.
  unfold vscale. induction d as [|x d IH]; simpl; [reflexivity|].
  rewrite IH. f_equal. ring.
Qed.

Lemma clamp_row_factor (b : ext) (d : vec) :
  (forall x, b = Fin x -> 0 <= x) ->
  exists c, 0 <= c <= 1 /\ clamp_row b d = vscale c d.
Proof.
  intros Hb. pose proof (clamp_row_cases b d) as Hcases.
  destruct b as [x|].
  - destruct Hcases as [Hgt Hle].
    destruct (Rle_or_lt (norm d) x) as [H|H].
    + exists 1. split; [lra|]. now rewrite vscale_1, Hle.
    + exists (x / norm d). split; [|now apply Hgt].
      pose proof (Hb x eq_refl) as Hx.
      assert (Hpos : 0 < norm d) by lra.
      split.
      * apply Rmult_le_pos; [assumption|]. left. now apply Rinv_0_lt_compat.
      * apply Rmult_le_reg_r with (norm d); [assumption|].
        unfold Rdiv. rewrite Rmult_assoc, Rinv_l by lra. lra.
  - exists 1. split; [lra|]. now rewrite vscale_1.
Qed.

Lemma nth_error_clamp (max_step : list ext) (u : list vec) (i : nat) :
  nth_error (clamp max_step u) i =
  match nth_error u i, nth_error max_step i with
  | Some d, Some b => Some (clamp_row b d)
  | _, _ => None
  end.
Proof.
  unfold clamp. rewrite nth_error_zip_with, combine_zip_with, nth_error_zip_with.
  rewrite nth_error_map. unfold einsum_ij_ij_i. rewrite nth_error_zip_with.
  destruct (nth_error u i) as [d|]; [|reflexivity].
  destruct (nth_error max_step i) as [b|]; reflexivity.
Qed.

Lemma clamp_length (max_step : list ext) (u : list vec) :
  length max_step = length u -> length (clamp max_step u) = length u.
Proof.
  intros H. unfold clamp. rewrite zip_with_length; [reflexivity|].
  rewrite combine_zip_with, zip_with_length; rewrite length_map; unfold einsum_ij_ij_i;
    rewrite zip_with_length; auto.
Qed.

(** A vertex whose proposal is its current position stays where it is, and
    its clamped step has length zero. *)
Lemma frozen_row (b : ext) (w : R) (p : vec) :
  vadd p (clamp_row b (vscale w (vsub p p))) = p
  /\ dot (clamp_row b (vscale w (vsub p p))) (clamp_row b (vscale w (vsub p p))) = 0.
Proof.
  assert (H1 : vadd p (vscale w (vsub p p)) = p).
  { unfold vadd, vscale, vsub. induction p as [|x p IH]; simpl; [reflexivity|].
    rewrite IH. f_equal. ring. }
  unfold clamp_row. destruct (gt_ext _ b); [destruct b as [x|]|]; split;
    auto using dot_frozen, vadd_frozen.
  rewrite dot_vscale, dot_frozen. ring.
Qed.

Lemma still_steps (w : R) (bound : list ext) (pts : list vec) :
  length bound = length pts ->
  zip_with vadd pts
    (clamp bound (zip_with (fun p q => vscale w (vsub p q)) pts pts)) = pts
  /\ einsum_ij_ij_i
       (clamp bound (zip_with (fun p q => vscale w (vsub p q)) pts pts))
       (clamp bound (zip_with (fun p q => vscale w (vsub p q)) pts pts))
     = map (fun _ => 0) pts.
Proof.
  intros Hlen.
  assert (Hrow : forall i,
    nth_error (clamp bound (zip_with (fun p q => vscale w (vsub p q)) pts pts)) i =
    match nth_error pts i, nth_error bound i with
    | Some p, Some b => Some (clamp_row b (vscale w (vsub p p)))
    | _, _ => None
    end).
  { intros i. rewrite nth_error_clamp, nth_error_zip_with.
    destruct (nth_error pts i); reflexivity. }
  split; apply nth_error_ext; intros i.
  - rewrite nth_error_zip_with, Hrow.
    destruct (nth_error pts i) as [p|] eqn:Hp; [|reflexivity].
    destruct (nth_error bound i) as [b|] eqn:Hb.
    + f_equal. apply frozen_row.
    + apply nth_error_None in Hb. assert (nth_error pts i <> None) by congruence.
      apply nth_error_Some in H. lia.
  - unfold einsum_ij_ij_i. rewrite nth_error_zip_with, Hrow, nth_error_map.
    destruct (nth_error pts i) as [p|] eqn:Hp; [|reflexivity].
    destruct (nth_error bound i) as [b|] eqn:Hb; simpl.
    + f_equal. apply frozen_row.
    + apply nth_error_None in Hb. assert (nth_error pts i <> None) by congruence.
      apply nth_error_Some in H. lia.
Qed.

(** ** The step-size bound *)

Lemma fold_min_fin (L : list R) (x : R) :
  exists m, fold_left ext_min L (Fin x) = Fin m
            /\ (m = x \/ In m L) /\ m <= x /\ forall v, In v L -> m <= v.
Proof.
  revert x. induction L as [|v L IH]; intros x; simpl.
  - exists x. repeat split; auto; try lra. contradiction.
  - destruct (IH (Rmin x v)) as (m & Hm & Hin & Hle & Hall).
    exists m. split; [exact Hm|].
    pose proof (Rmin_l x v). pose proof (Rmin_r x v).
    repeat split.
    + destruct Hin as [->|Hin]; [|now right; right].
      unfold Rmin. destruct (Rle_dec x v); [now left|now right; left].
    + lra.
    + intros v' [<-|Hv']; [lra|auto].
Qed.

Lemma fold_min_inf (L : list R) :
  match fold_left ext_min L Inf with
  | Inf => L = []
  | Fin m => In m L /\ forall v, In v L -> m <= v
  end.
Proof.
  destruct L as [|v L]; simpl; [reflexivity|].
  destruct (fold_min_fin L v) as (m & -> & Hin & Hle & Hall).
  split.
  - destruct Hin as [->|Hin]; [now left|now right].
  - intros v' [<-|Hv']; [lra|auto].
Qed.

Lemma minimum_at_spec (idx : list nat) (vals : list R) (a : list ext) :
  length idx = length vals ->
  Forall (fun i => (i < length a)%nat) idx ->
  exists b, minimum_at a idx vals = Ok b
            /\ length b = length a
            /\ forall i, nth_error b i
                         = option_map (fold_left ext_min (hits i idx vals)) (nth_error a i).
Proof.
  revert vals a. induction idx as [|j idx IH]; intros [|v vals] a; simpl; try discriminate.
  - intros _ _. exists a. repeat split. intros i. now destruct (nth_error a i).
  - intros [= Hlen] Hall. inversion Hall as [|? ? Hj Hrest]; subst.
    destruct (nth_error a j) as [x|] eqn:Hx; [|apply nth_error_None in Hx; lia].
    destruct (IH vals (update a j (ext_min x v)) Hlen) as (b & Hb & Hlb & Hnth).
    { now rewrite update_length. }
    exists b. split; [exact Hb|]. split; [now rewrite Hlb, update_length|].
    intros i. rewrite Hnth, nth_error_update by assumption.
    rewrite Nat.eqb_sym.
    destruct (Nat.eqb_spec j i) as [->|Hne]; simpl.
    + now rewrite Hx.
    + reflexivity.
Qed.

Lemma In_hits_cells (i : nat) (cs : list (nat * nat * nat)) (inr : list R) (v : R) :
  length inr = length cs ->
  In v (hits i (reshape_flat cs) (repeat3 inr))
  <-> exists j c, nth_error cs j = Some c /\ nth_error inr j = Some v /\ incident i c.
Proof.
  revert inr. induction cs as [|[[a b] c] cs IH]; intros [|r inr]; simpl; try discriminate.
  - intros _. split; [contradiction|]. intros (j & c & H & _). now destruct j.
  - intros [= Hlen]. specialize (IH inr Hlen).
    assert (Hhead :
      In v (hits i (a :: b :: c :: reshape_flat cs) (r :: r :: r :: repeat3 inr))
      <-> (v = r /\ incident i (a, b, c))
          \/ In v (hits i (reshape_flat cs) (repeat3 inr))).
    { simpl.
      destruct (Nat.eqb_spec a i), (Nat.eqb_spec b i), (Nat.eqb_spec c i);
        simpl; intuition (subst; auto; try lia; try congruence). }
    rewrite Hhead, IH. split.
    + intros [[-> Hinc]|(j & c0 & H1 & H2 & H3)].
      * exists 0%nat, (a, b, c). auto.
      * exists (S j), c0. auto.
    + intros (j & c0 & H1 & H2 & H3). destruct j as [|j]; simpl in *.
      * left. injection H1 as <-. injection H2 as <-. auto.
      * right. exists j, c0. auto.
Qed.

Lemma max_step_of_spec (m : mesh) (inr : list R) :
  valid_cells m -> length inr = length (cells m) ->
  exists bound, max_step_of m inr = Ok bound
                /\ length bound = length (points m)
                /\ forall i b, nth_error bound i = Some b -> half_min_inradius m inr i b.
Proof.
  intros Hvalid Hlen. unfold max_step_of.
  destruct (minimum_at_spec (reshape_flat (cells m)) (repeat3 inr)
              (repeat Inf (length (points m)))) as (a & Ha & Hla & Hnth).
  { unfold reshape_flat, repeat3. rewrite !length_flat_map.
    clear Hvalid. revert inr Hlen.
    induction (cells m) as [|[[? ?] ?] cs IH]; intros [|r inr]; simpl; try discriminate; auto. }
  { rewrite repeat_length. exact Hvalid. }
  rewrite Ha. simpl. eexists. split; [reflexivity|].
  rewrite length_map, Hla, repeat_length. split; [reflexivity|].
  intros i b Hb. rewrite nth_error_map, Hnth in Hb.
  destruct (nth_error (repeat Inf (length (points m))) i) as [e|] eqn:He; [|discriminate].
  apply nth_error_In, repeat_spec in He. subst e. simpl in Hb. injection Hb as <-.
  pose proof (fold_min_inf (hits i (reshape_flat (cells m)) (repeat3 inr))) as Hmin.
  destruct (fold_left ext_min _ Inf) as [x|]; simpl.
  - destruct Hmin as [Hin Hall]. split.
    + exists x. split; [|reflexivity].
      apply In_hits_cells in Hin; assumption.
    + intros r Hr. apply (In_hits_cells i (cells m) inr r Hlen) in Hr.
      apply Hall in Hr. lra.
  - intros r Hr. apply (In_hits_cells i (cells m) inr r Hlen) in Hr.
    rewrite Hmin in Hr. contradiction.
Qed.

(** ** One pass through the loop body *)

Section Iteration.

Context (E : services).
Variables (get_new_points : mesh -> list vec) (tol : R) (max_num_steps : Z) (kw : kwargs).

Lemma boundary_handling_ok (m : mesh) :
  well_shaped E get_new_points kw m ->
  exists proposal,
    boundary_handling (kw_boundary_step kw) (is_boundary_point E m)
      (get_new_points m) (points m) = Ok proposal
    /\ length proposal = length (points m)
    /\ (kw_boundary_step kw = None ->
        forall i, nth_error proposal i =
                  match nth_error (is_boundary_point E m) i with
                  | Some true => nth_error (points m) i
                  | _ => nth_error (get_new_points m) i
                  end).
Proof.
  intros (Hn & Hb & _ & _ & Hg). unfold boundary_handling.
  destruct (kw_boundary_step kw) as [g|].
  - rewrite Hb, Hn, Nat.eqb_refl, Hg, Nat.eqb_refl.
    eexists. split; [reflexivity|]. split; [|discriminate].
    now rewrite mask_assign_length.
  - rewrite Hb, Hn, Nat.eqb_refl. simpl.
    eexists. split; [reflexivity|]. split.
    + now rewrite mask_assign_length.
    + intros _ i. apply nth_error_mask_assign_select; congruence.
Qed.

(** The array steps succeed on well-shaped inputs, up to the projection. *)
Lemma array_steps_ok (sfuel : nat) (m : mesh) :
  well_shaped E get_new_points kw m ->
  exists proposal u bound,
    boundary_handling (kw_boundary_step kw) (is_boundary_point E m)
      (get_new_points m) (points m) = Ok proposal
    /\ step_vector (arg_omega kw) proposal (points m) = Ok u
    /\ max_step_of m (cell_inradius E m) = Ok bound
    /\ length proposal = length (points m)
    /\ length u = length (points m)
    /\ length bound = length (points m)
    /\ length (clamp bound u) = length (points m)
    /\ array_steps kw sfuel m (get_new_points m) (is_boundary_point E m) (cell_inradius E m)
       = (P <-- match kw_implicit_surface kw with
                | None => Ok (zip_with vadd (points m) (clamp bound u))
                | Some surf =>
                    project sfuel surf (arg_implicit_surface_tol kw)
                      (zip_with vadd (points m) (clamp bound u))
                      (surf_f surf (zip_with vadd (points m) (clamp bound u)))
                end ;;
          Ok (clamp bound u, P))%outcome.
Proof.
  intros Hws.
  destruct (boundary_handling_ok m Hws) as (proposal & Hp & Hlp & _).
  destruct Hws as (_ & _ & Hr & Hvalid & _).
  destruct (max_step_of_spec m _ Hvalid Hr) as (bound & Hbound & Hlb & _).
  exists proposal, (zip_with (fun p q => vscale (arg_omega kw) (vsub p q)) proposal (points m)), bound.
  assert (Hlu : length (zip_with (fun p q => vscale (arg_omega kw) (vsub p q))
                          proposal (points m)) = length (points m)).
  { rewrite zip_with_length; assumption. }
  assert (Hsv : step_vector (arg_omega kw) proposal (points m)
                = Ok (zip_with (fun p q => vscale (arg_omega kw) (vsub p q)) proposal (points m))).
  { unfold step_vector. now rewrite Hlp, Nat.eqb_refl. }
  repeat split; try assumption.
  - rewrite clamp_length; congruence.
  - unfold array_steps. rewrite Hp. simpl. rewrite Hsv. simpl. rewrite Hbound. reflexivity.
Qed.

(** The body of the loop, outcome by outcome. *)
Lemma iteration_unfold (sfuel : nat) (k : Z) (st : state) :
  iteration E get_new_points tol max_num_steps kw sfuel k st =
  let m := st_mesh st in
  let log1 := st_log st ++ [get_new_points_call m] in
  match array_steps kw sfuel m (get_new_points m) (is_boundary_point E m) (cell_inradius E m) with
  | Ok r =>
      let d := fst r in
      let m1 := Mesh (snd r) (cells m) in
      let m2 := flip_until_delaunay E m1 in
      let fin := forallb (fun x => Rltb x (tol ^ 2)) (einsum_ij_ij_i d d)
                 || (max_num_steps <=? k)%Z in
      (Ok (Locals d (einsum_ij_ij_i d d) fin),
       State m2 (log1 ++ flip_call m1 :: report_events kw k fin m2))
  | Raise e => (Raise e, State m log1)
  | OutOfFuel l => (OutOfFuel l, State m log1)
  end.
Proof.
  unfold iteration, flip, bind, get_mesh, emit, set_mesh, lift, when, ret, report_events.
  simpl.
  destruct (array_steps kw sfuel (st_mesh st) (get_new_points (st_mesh st))
              (is_boundary_point E (st_mesh st)) (cell_inradius E (st_mesh st)))
    as [[d P]| |]; simpl; try reflexivity.
  destruct (forallb _ _ || _), (arg_verbose kw), (truthy _), (kw_callback kw); simpl;
    rewrite <- ?app_assoc; reflexivity.
Qed.

Lemma nonneg_bound (m : mesh) (inr : list R) (i : nat) (x : R) :
  Forall (fun r => 0 <= r) inr -> half_min_inradius m inr i (Fin x) -> 0 <= x.
Proof.
  intros Hpos [(r & (j & c & _ & Hr & _) & ->) _].
  apply nth_error_In in Hr. rewrite Forall_forall in Hpos.
  specialize (Hpos r Hr). lra.
Qed.


End Iteration.

(** ** The projection onto the implicit surface *)

Ltac split_abs :=
  unfold Rabs;
  repeat match goal with
         | |- context [Rcase_abs ?e] => destruct (Rcase_abs e)
         end.

(** Settles the comparisons of a run on concrete numbers. *)
Ltac decide_comparisons :=
  repeat match goal with
         | |- context [Rgtb ?x ?y] =>
             first [ rewrite (Rgtb_true x y) by (split_abs; lra)
                   | rewrite (Rgtb_false x y) by (split_abs; lra) ]
         | |- context [Rltb ?x ?y] =>
             first [ rewrite (Rltb_true x y) by (split_abs; lra)
                   | rewrite (Rltb_false x y) by (split_abs; lra) ]
         end.

Section Projection.

Variables (surf : surface) (tol : R).









End Projection.

(** ** Boundary points and the projection inside the loop *)

Section Boundary.

Context (E : services).
Variables (get_new_points : mesh -> list vec) (tol : R) (max_num_steps : Z) (kw : kwargs).

(** With nothing to move, the step is zero everywhere and the points handed
    to the projection are the current ones. *)
Lemma at_rest_array_steps (sfuel : nat) (m : mesh) :
  well_shaped E get_new_points kw m ->
  kw_boundary_step kw = None ->
  at_rest E get_new_points m ->
  exists d,
    array_steps kw sfuel m (get_new_points m) (is_boundary_point E m) (cell_inradius E m)
    = (P <-- match kw_implicit_surface kw with
             | None => Ok (points m)
             | Some surf =>
                 project sfuel surf (arg_implicit_surface_tol kw) (points m)
                   (surf_f surf (points m))
             end ;;
       Ok (d, P))%outcome
    /\ einsum_ij_ij_i d d = map (fun _ => 0) (points m)
    /\ zip_with vadd (points m) d = points m.
Proof.
  intros Hws Hnone Hrest.
  destruct (array_steps_ok E get_new_points kw sfuel m Hws)
    as (proposal & u & bound & Hp & Hu & _ & Hlp & _ & Hlb & _ & Has).
  destruct (boundary_handling_ok E get_new_points kw m Hws) as (proposal' & Hp' & _ & Hnth).
  rewrite Hp in Hp'. injection Hp' as <-. specialize (Hnth Hnone).
  assert (Heq : proposal = points m).
  { apply nth_error_ext. intros i. rewrite Hnth.
    destruct (Nat.lt_ge_cases i (length (points m))) as [Hi|Hi].
    - destruct (Hrest i Hi) as [-> | ->]; [reflexivity|].
      destruct (nth_error (is_boundary_point E m) i) as [[]|]; reflexivity.
    - destruct Hws as (Hn & Hb & _).
      assert (H1 : nth_error (is_boundary_point E m) i = None)
        by (apply nth_error_None; lia).
      assert (H2 : nth_error (get_new_points m) i = None)
        by (apply nth_error_None; lia).
      assert (H3 : nth_error (points m) i = None) by (apply nth_error_None; lia).
      now rewrite H1, H2, H3. }
  subst proposal. unfold step_vector in Hu. rewrite Nat.eqb_refl in Hu.
  injection Hu as <-.
  destruct (still_steps (arg_omega kw) bound (points m) Hlb) as [Hadd Hzero].
  pose proof Hadd as Hadd'. rewrite Hadd in Has.
  eexists. split; [exact Has|]. split; [exact Hzero|exact Hadd'].
Qed.

(** C3. With neither [boundary_step] nor [implicit_surface] configured, a
    pass of the loop on well-shaped inputs completes and leaves every
    boundary vertex exactly where it was; its clamped step has length 0.
    (Delaunay flips do not move vertices.) *)
Theorem boundary_freeze (sfuel : nat) (k : Z) (st : state) :
  let m := st_mesh st in
  well_shaped E get_new_points kw m ->
  kw_boundary_step kw = None ->
  kw_implicit_surface kw = None ->
  (forall m', points (flip_until_delaunay E m') = points m') ->
  exists l st',
    iteration E get_new_points tol max_num_steps kw sfuel k st = (Ok l, st')
    /\ length (points (st_mesh st')) = length (points m)
    /\ forall i p,
         nth_error (is_boundary_point E m) i = Some true ->
         nth_error (points m) i = Some p ->
         nth_error (points (st_mesh st')) i = Some p
         /\ exists di, nth_error (diff l) i = Some di /\ norm di = 0.
Proof.
  intros m Hws Hnone Hsurf Hflip.
  destruct (array_steps_ok E get_new_points kw sfuel m Hws)
    as (proposal & u & bound & Hp & Hu & _ & Hlp & Hlu & Hlb & Hlc & Has).
  destruct (boundary_handling_ok E get_new_points kw m Hws) as (proposal' & Hp' & _ & Hnth).
  rewrite Hp in Hp'. injection Hp' as <-. specialize (Hnth Hnone).
  unfold step_vector in Hu. rewrite Hlp, Nat.eqb_refl in Hu. injection Hu as <-.
  rewrite iteration_unfold. cbv zeta. fold m. rewrite Has, Hsurf. simpl.
  eexists. eexists. split; [reflexivity|]. simpl. rewrite Hflip. simpl. split.
  - rewrite zip_with_length; congruence.
  - intros i p Hb Hpi.
    assert (Hb' : exists b, nth_error bound i = Some b).
    { destruct (nth_error bound i) as [b|] eqn:Hbi; [now exists b|].
      apply nth_error_None in Hbi. assert (nth_error (points m) i <> None) by congruence.
      apply nth_error_Some in H. lia. }
    destruct Hb' as [b Hbi].
    assert (Hd : nth_error
                   (clamp bound
                      (zip_with (fun p q => vscale (arg_omega kw) (vsub p q))
                         proposal (points m))) i
                 = Some (clamp_row b (vscale (arg_omega kw) (vsub p p)))).
    { rewrite nth_error_clamp, nth_error_zip_with, Hnth, Hb, Hpi, Hbi. reflexivity. }
    destruct (frozen_row b (arg_omega kw) p) as [Hadd Hdot].
    split.
    + rewrite nth_error_zip_with, Hpi, Hd. now rewrite Hadd.
    + eexists. split; [exact Hd|]. unfold norm. rewrite Hdot. apply sqrt_0.
Qed.


End Boundary.

(** ** The main loop *)



Lemma fold_left_Rmax (rest : list R) (x : R) :
  (fold_left Rmax rest x = x \/ In (fold_left Rmax rest x) rest)
  /\ x <= fold_left Rmax rest x
  /\ forall y, In y rest -> y <= fold_left Rmax rest x.
Proof.
  revert x. induction rest as [|y rest IH]; intros x; simpl.
  - repeat split; auto; try lra. contradiction.
  - destruct (IH (Rmax x y)) as (Hin & Hle & Hall).
    pose proof (Rmax_l x y). pose proof (Rmax_r x y).
    repeat split.
    + destruct Hin as [Heq|Hin]; [|now right; right].
      rewrite Heq. unfold Rmax. destruct (Rle_dec x y); [right; now left|now left].
    + lra.
    + intros z [<-|Hz]; [lra|auto].
Qed.

Lemma np_max_spec (a : list R) (r : R) : np_max a = Ok r -> is_max r a.
Proof.
  destruct a as [|x rest]; simpl; [discriminate|]. intros [= <-].
  destruct (fold_left_Rmax rest x) as (Hin & Hle & Hall). split.
  - destruct Hin as [->|Hin]; [now left|now right].
  - intros y [<-|Hy]; auto.
Qed.

Lemma np_max_total (a : list R) : a <> [] -> exists r, np_max a = Ok r.
Proof. destruct a; [contradiction|]. intros _. simpl. eauto. Qed.

Section Loop.

Context (E : services).
Variables (get_new_points : mesh -> list vec) (tol : R) (max_num_steps : Z) (kw : kwargs).


Lemma report_events_no_iteration (k : Z) (fin : bool) (m : mesh) :
  iterations_logged (report_events kw k fin m) = 0%nat.
Proof.
  unfold report_events, iterations_logged.
  destruct (fin && arg_verbose kw), (truthy _), (kw_callback kw); reflexivity.
Qed.

Lemma iterations_logged_app (l1 l2 : list event) :
  iterations_logged (l1 ++ l2) = (iterations_logged l1 + iterations_logged l2)%nat.
Proof. unfold iterations_logged. now rewrite filter_app, length_app. Qed.

(** Every pass through the body records exactly one call of the strategy. *)
Lemma iteration_log (sfuel : nat) (k : Z) (st : state) :
  iterations_logged (st_log (snd (iteration E get_new_points tol max_num_steps kw sfuel k st)))
  = S (iterations_logged (st_log st)).
Proof.
  rewrite iteration_unfold. cbv zeta.
  destruct (array_steps _ _ _ _ _ _) as [r| |]; simpl;
    rewrite !iterations_logged_app; simpl; try (unfold iterations_logged; simpl; lia).
  change (flip_call ?m :: ?l) with ([flip_call m] ++ l).
  unfold iterations_logged at 2. simpl.
  change (iterations_logged (flip_call ?m :: ?l)) with (iterations_logged l).
  rewrite report_events_no_iteration. lia.
Qed.


Lemma iteration_final_at_cap (sfuel : nat) (k : Z) (st : state) (l : locals) (st' : state) :
  iteration E get_new_points tol max_num_steps kw sfuel k st = (Ok l, st') ->
  is_final l = false -> (k < max_num_steps)%Z.
Proof.
  rewrite iteration_unfold. cbv zeta.
  destruct (array_steps _ _ _ _ _ _); simpl; try discriminate.
  intros [= <- _]. simpl. intros H. apply orb_false_iff in H. destruct H as [_ H].
  apply Z.leb_gt in H. exact H.
Qed.


(** [_optimize], outcome by outcome. *)
Lemma optimize_unfold (fuel sfuel : nat) (st : state) :
  _optimize E get_new_points tol max_num_steps kw fuel sfuel st =
  match while_true E get_new_points tol max_num_steps kw fuel sfuel 0 (prelude_state E kw st) with
  | (Ok r, st') =>
      (match np_max (map sqrt (diff_norm_2 (snd r))) with
       | Ok residual => Ok (fst r, residual)
       | Raise e => Raise e
       | OutOfFuel t => OutOfFuel t
       end, st')
  | (Raise e, st') => (Raise e, st')
  | (OutOfFuel t, st') => (OutOfFuel t, st')
  end.
Proof.
  unfold _optimize, prelude_state, flip, bind, get_mesh, emit, set_mesh, when, lift, ret.
  simpl.
  destruct (arg_verbose kw), (truthy _), (kw_callback kw); simpl;
    rewrite <- ?app_assoc; simpl;
    (destruct (while_true _ _ _ _ _ _ _ _ _) as [[r|e|t] st']; [|reflexivity|reflexivity];
     destruct (np_max _); reflexivity).
Qed.

Lemma prelude_no_iteration (st : state) :
  iterations_logged (st_log (prelude_state E kw st)) = iterations_logged (st_log st).
Proof.
  unfold prelude_state. simpl. rewrite !iterations_logged_app.
  destruct (arg_verbose kw), (truthy _), (kw_callback kw); unfold iterations_logged; simpl; lia.
Qed.

End Loop.

(** ** What the driver returns *)

Lemma einsum_self (d : list vec) : map sqrt (einsum_ij_ij_i d d) = map norm d.
Proof. unfold einsum_ij_ij_i. rewrite zip_with_same, map_map. reflexivity. Qed.



Section Return.

Context (E : services).
Variables (get_new_points : mesh -> list vec) (tol : R) (max_num_steps : Z) (kw : kwargs).

Lemma while_true_run (fuel sfuel : nat) (k : Z) (st : state) (k' : Z) (l : locals)
    (st' : state) :
  while_true E get_new_points tol max_num_steps kw fuel sfuel k st = (Ok (k', l), st') ->
  run E get_new_points tol max_num_steps kw sfuel k st k' l st'.
Proof.
  revert k st. induction fuel as [|fuel IH]; intros k st; simpl; [discriminate|].
  unfold bind.
  destruct (iteration E get_new_points tol max_num_steps kw sfuel (k + 1) st)
    as [[l1|e|t] st1] eqn:Hit; try discriminate.
  destruct (is_final l1) eqn:Hfin.
  - intros [= <- <- <-]. now apply run_last.
  - intros H. eapply run_more; eauto.
Qed.

Lemma run_last_pass (sfuel : nat) (k : Z) (st : state) (k' : Z) (l : locals) (st' : state) :
  run E get_new_points tol max_num_steps kw sfuel k st k' l st' ->
  (k < k')%Z
  /\ is_final l = true
  /\ exists st_prev,
       iteration E get_new_points tol max_num_steps kw sfuel k' st_prev = (Ok l, st').
Proof.
  induction 1 as [k st l st' Hit Hfin|k st l1 st1 k' l st' Hit Hfin Hrun IH].
  - repeat split; [lia|assumption|]. now exists st.
  - destruct IH as (Hlt & Hf & Hprev). repeat split; [lia|assumption|assumption].
Qed.

Lemma run_count (sfuel : nat) (k : Z) (st : state) (k' : Z) (l : locals) (st' : state) :
  run E get_new_points tol max_num_steps kw sfuel k st k' l st' ->
  iterations_logged (st_log st') = (iterations_logged (st_log st) + Z.to_nat (k' - k))%nat.
Proof.
  induction 1 as [k st l st' Hit Hfin|k st l1 st1 k' l st' Hit Hfin Hrun IH].
  - pose proof (iteration_log E get_new_points tol max_num_steps kw sfuel (k + 1) st) as H.
    rewrite Hit in H. simpl in H. rewrite H. lia.
  - pose proof (iteration_log E get_new_points tol max_num_steps kw sfuel (k + 1) st) as H.
    rewrite Hit in H. simpl in H. rewrite IH, H.
    apply run_last_pass in Hrun. lia.
Qed.

Lemma run_while_true (sfuel : nat) (k : Z) (st : state) (k' : Z) (l : locals) (st' : state) :
  run E get_new_points tol max_num_steps kw sfuel k st k' l st' ->
  forall fuel, (Z.to_nat (k' - k) <= fuel)%nat ->
    while_true E get_new_points tol max_num_steps kw fuel sfuel k st = (Ok (k', l), st').
Proof.
  induction 1 as [k st l st' Hit Hfin|k st l1 st1 k' l st' Hit Hfin Hrun IH];
    intros fuel Hfuel.
  - destruct fuel as [|fuel]; [lia|].
    simpl. unfold bind. now rewrite Hit, Hfin.
  - pose proof (run_last_pass _ _ _ _ _ _ Hrun) as (Hlt & _).
    destruct fuel as [|fuel]; [lia|].
    simpl. unfold bind. rewrite Hit, Hfin. apply IH. lia.
Qed.

Lemma iteration_locals (sfuel : nat) (k : Z) (st : state) (l : locals) (st' : state) :
  iteration E get_new_points tol max_num_steps kw sfuel k st = (Ok l, st') ->
  diff_norm_2 l = einsum_ij_ij_i (diff l) (diff l)
  /\ is_final l = forallb (fun x => Rltb x (tol ^ 2)) (diff_norm_2 l)
                  || (max_num_steps <=? k)%Z.
Proof.
  rewrite iteration_unfold. cbv zeta.
  destruct (array_steps _ _ _ _ _ _); simpl; try discriminate.
  intros [= <- _]. split; reflexivity.
Qed.

Lemma iteration_total (sfuel : nat) (k : Z) (st : state) :
  well_behaved E get_new_points kw ->
  valid_cells (st_mesh st) ->
  kw_implicit_surface kw = None ->
  exists l st',
    iteration E get_new_points tol max_num_steps kw sfuel k st = (Ok l, st')
    /\ valid_cells (st_mesh st')
    /\ length (points (st_mesh st')) = length (points (st_mesh st))
    /\ length (diff_norm_2 l) = length (points (st_mesh st)).
Proof.
  intros Hwb Hvalid Hsurf.
  destruct (Hwb _ Hvalid) as (Hws & _ & _).
  destruct (array_steps_ok E get_new_points kw sfuel _ Hws)
    as (proposal & u & bound & _ & _ & _ & _ & _ & _ & Hlc & Has).
  rewrite iteration_unfold. cbv zeta. rewrite Has, Hsurf. simpl.
  eexists. eexists. split; [reflexivity|]. simpl.
  assert (Hlen : length (zip_with vadd (points (st_mesh st)) (clamp bound u))
                 = length (points (st_mesh st))).
  { rewrite zip_with_length; congruence. }
  assert (Hv1 : valid_cells (Mesh (zip_with vadd (points (st_mesh st)) (clamp bound u))
                               (cells (st_mesh st)))).
  { unfold valid_cells in *. simpl. now rewrite Hlen. }
  destruct (Hwb _ Hv1) as (_ & Hv2 & Hl2). repeat split.
  - exact Hv2.
  - rewrite Hl2. exact Hlen.
  - unfold einsum_ij_ij_i. rewrite zip_with_length; congruence.
Qed.

Lemma while_true_total (fuel sfuel : nat) (k : Z) (st : state) :
  well_behaved E get_new_points kw ->
  valid_cells (st_mesh st) ->
  kw_implicit_surface kw = None ->
  (Z.to_nat (Z.max 1 (max_num_steps - k)) <= fuel)%nat ->
  exists k' l st',
    while_true E get_new_points tol max_num_steps kw fuel sfuel k st = (Ok (k', l), st')
    /\ length (diff_norm_2 l) = length (points (st_mesh st)).
Proof.
  intros Hwb Hvalid Hsurf. revert k st Hvalid.
  induction fuel as [|fuel IH]; intros k st Hvalid Hfuel; [lia|].
  destruct (iteration_total sfuel (k + 1) st Hwb Hvalid Hsurf)
    as (l1 & st1 & Hit & Hv1 & Hl1 & Hd1).
  simpl. unfold bind. rewrite Hit. destruct (is_final l1) eqn:Hfin.
  - exists (k + 1)%Z, l1, st1. split; [reflexivity|assumption].
  - pose proof (iteration_final_at_cap _ _ _ _ _ _ _ _ _ _ Hit Hfin) as Hcap.
    destruct (IH (k + 1)%Z st1 Hv1) as (k' & l & st' & Hw & Hd); [lia|].
    exists k', l, st'. split; [exact Hw|congruence].
Qed.


(** A driver run that returns: the counter counts the passes and the
    residual is the largest length among the rows of the last clamped step. *)
Lemma optimize_returns (fuel sfuel : nat) (st : state) (k : Z) (r : R) (st' : state) :
  _optimize E get_new_points tol max_num_steps kw fuel sfuel st = (Ok (k, r), st') ->
  exists l,
    run E get_new_points tol max_num_steps kw sfuel 0 (prelude_state E kw st) k l st'
    /\ is_max r (map norm (diff l))
    /\ (1 <= k)%Z
    /\ iterations_logged (st_log st') = (iterations_logged (st_log st) + Z.to_nat k)%nat.
Proof.
  rewrite optimize_unfold.
  destruct (while_true _ _ _ _ _ _ _ _ _) as [[[k0 l]|e|t] st1] eqn:Hw; try discriminate.
  simpl. destruct (np_max _) as [r0| |] eqn:Hmax; try discriminate.
  intros [= <- <- <-]. exists l.
  pose proof (while_true_run _ _ _ _ _ _ _ Hw) as Hrun.
  destruct (run_last_pass _ _ _ _ _ _ Hrun) as (Hlt & _ & st_prev & Hit).
  destruct (iteration_locals _ _ _ _ _ Hit) as [Hdn _].
  repeat split.
  - exact Hrun.
  - apply np_max_spec in Hmax. rewrite Hdn, einsum_self in Hmax. apply Hmax.
  - apply np_max_spec in Hmax. rewrite Hdn, einsum_self in Hmax. apply Hmax.
  - lia.
  - rewrite (run_count _ _ _ _ _ _ Hrun), prelude_no_iteration, Z.sub_0_r. reflexivity.
Qed.

(** On well-behaved collaborators, without an implicit surface and with at
    least one vertex, the driver does return. *)
Lemma optimize_total (fuel sfuel : nat) (st : state) :
  well_behaved E get_new_points kw ->
  valid_cells (st_mesh st) ->
  points (st_mesh st) <> [] ->
  kw_implicit_surface kw = None ->
  (Z.to_nat (Z.max 1 max_num_steps) <= fuel)%nat ->
  exists k r st',
    _optimize E get_new_points tol max_num_steps kw fuel sfuel st = (Ok (k, r), st').
Proof.
  intros Hwb Hvalid Hne Hsurf Hfuel.
  destruct (Hwb _ Hvalid) as (_ & Hv0 & Hl0).
  destruct (while_true_total fuel sfuel 0 (prelude_state E kw st) Hwb Hv0 Hsurf)
    as (k & l & st' & Hw & Hlen).
  { now rewrite Z.sub_0_r. }
  rewrite optimize_unfold, Hw. simpl.
  destruct (np_max_total (map sqrt (diff_norm_2 l))) as [r Hr].
  { intros Hnil. apply (f_equal (@length R)) in Hnil.
    rewrite length_map, Hlen in Hnil. simpl in Hnil. rewrite Hl0 in Hnil.
    destruct (points (st_mesh st)); [now apply Hne|discriminate]. }
  rewrite Hr. eauto.
Qed.


(** A run from a mesh at rest: one pass, residual 0. *)
Lemma at_rest_optimize (fuel sfuel : nat) (st : state) :
  let m0 := flip_until_delaunay E (st_mesh st) in
  well_shaped E get_new_points kw m0 ->
  kw_boundary_step kw = None ->
  kw_implicit_surface kw = None ->
  at_rest E get_new_points m0 ->
  points m0 <> [] ->
  tol <> 0 \/ (max_num_steps <= 1)%Z ->
  exists st',
    _optimize E get_new_points tol max_num_steps kw (S fuel) sfuel st = (Ok (1%Z, 0), st').
Proof.
  intros m0 Hws Hb Hsurf Hrest Hne Hfinal.
  destruct (at_rest_array_steps E get_new_points kw sfuel m0 Hws Hb Hrest)
    as (d & Has & Hzero & _).
  rewrite optimize_unfold. simpl. unfold bind.
  rewrite iteration_unfold. cbv zeta.
  change (st_mesh (prelude_state E kw st)) with m0.
  rewrite Has, Hsurf. simpl. rewrite Hzero.
  assert (Hfin : forallb (fun x => Rltb x (tol * (tol * 1)))
                   (map (fun _ : vec => 0) (points m0))
                 || (max_num_steps <=? 1)%Z = true).
  { destruct Hfinal as [Ht|Hn].
    - apply orb_true_iff. left. apply forallb_forall. intros x Hx.
      apply in_map_iff in Hx. destruct Hx as (_ & <- & _).
      apply Rltb_true. assert (0 < tol * tol) by nra. lra.
    - apply orb_true_iff. right. now apply Z.leb_le. }
  rewrite Hfin. simpl.
  assert (Hmax : np_max (map sqrt (map (fun _ : vec => 0) (points m0))) = Ok 0).
  { destruct (points m0) as [|p ps]; [contradiction|]. simpl. f_equal.
    rewrite sqrt_0. clear. induction ps as [|q ps IH]; simpl; [reflexivity|].
    rewrite sqrt_0, Rmax_left by lra. exact IH. }
  rewrite Hmax. eauto.
Qed.

End Return.

(** ** The entry point *)

Section Entry.

Context (E : services).
Variables (fuel sfuel : nat) (tol : R) (max_num_steps : Z) (kw : kwargs).

Open Scope string_scope.

(** C5. A call that is handed to the external optimiser returns [None].
    A call whose name is found in the registry and that returns, returns the
    pair of the driver: the number of passes made through the main loop and
    the largest Euclidean length among the rows of the last clamped step.
    Such a call does return on well-behaved collaborators when no implicit
    surface is configured and the mesh has a vertex. *)
Theorem return_contract (method : string) (st : state) :
  (PyStr.slice_to 3 (normalize method) = "odt" ->
   PyStr.slice_from 4 (normalize method) <> "fixed-point" ->
   (forall v st',
       optimize E fuel sfuel method tol max_num_steps kw st = (Ok v, st') -> v = PyNone)
   /\ (kw_omega kw = None ->
       exists st', optimize E fuel sfuel method tol max_num_steps kw st = (Ok PyNone, st')))
  /\ (forall s v st',
        dict_get methods (normalize method) = Some s ->
        optimize E fuel sfuel method tol max_num_steps kw st = (Ok v, st') ->
        exists k r l,
          v = PyPair k r
          /\ run E (get_new_points_of E s) tol max_num_steps kw sfuel 0
               (prelude_state E kw st) k l st'
          /\ is_max r (map norm (diff l))
          /\ (1 <= k)%Z
          /\ iterations_logged (st_log st')
             = (iterations_logged (st_log st) + Z.to_nat k)%nat)
  /\ (forall s,
        dict_get methods (normalize method) = Some s ->
        well_behaved E (get_new_points_of E s) kw ->
        valid_cells (st_mesh st) ->
        points (st_mesh st) <> [] ->
        kw_implicit_surface kw = None ->
        (Z.to_nat (Z.max 1 max_num_steps) <= fuel)%nat ->
        exists k r st',
          optimize E fuel sfuel method tol max_num_steps kw st = (Ok (PyPair k r), st')).
Proof.
  split; [|split].
  - intros H3 H4.
    assert (Heq : optimize E fuel sfuel method tol max_num_steps kw st
                  = odt_branch E (PyStr.slice_from 4 (normalize method))
                      tol max_num_steps kw st).
    { unfold optimize. rewrite H3.
      destruct (String.eqb_spec (PyStr.slice_from 4 (normalize method)) "fixed-point");
        [contradiction|reflexivity]. }
    rewrite Heq, odt_branch_eq. split.
    + intros v st'. destruct (kw_omega kw) as [w|]; [destruct (Req_dec_T w 1.0)|];
        intros [= <- _]; reflexivity.
    + intros ->. eauto.
  - intros s v st' Hs. unfold optimize.
    rewrite (registry_names_reach_driver _ _ Hs), Hs. unfold bind.
    destruct (_optimize _ _ _ _ _ _ _ _) as [[[k r]|e|t] st1] eqn:Hopt; try discriminate.
    intros [= <- <-]. simpl.
    destruct (optimize_returns _ _ _ _ _ _ _ _ _ _ _ Hopt) as (l & Hrun & Hmax & Hk & Hcount).
    exists k, r, l. auto.
  - intros s Hs Hwb Hvalid Hne Hsurf Hfuel. unfold optimize.
    rewrite (registry_names_reach_driver _ _ Hs), Hs. unfold bind.
    destruct (optimize_total E (get_new_points_of E s) tol max_num_steps kw fuel sfuel st
                Hwb Hvalid Hne Hsurf Hfuel) as (k & r & st' & ->).
    simpl. exists k, r, st'. reflexivity.
Qed.

End Entry.

(** ** Normal forms of method names *)

Section Normalization.

Open Scope string_scope.

Lemma append_empty_r (s : string) : s ++ "" = s.
Proof. induction s as [|c s IH]; simpl; [reflexivity|now rewrite IH]. Qed.

Lemma append_assoc (s t u : string) : (s ++ t) ++ u = s ++ (t ++ u).
Proof. induction s as [|c s IH]; simpl; [reflexivity|now rewrite IH]. Qed.

Lemma re_split_words (cur s : string) :
  filter PyStr.nonempty (prepend cur (PyStr.re_split s)) = words_from cur s.
Proof.
  revert cur. induction s as [|c s IH]; intros cur; simpl.
  - now rewrite append_empty_r.
  - destruct (PyStr.is_delim c); simpl.
    + rewrite append_empty_r, <- (IH "").
      assert (H : prepend "" (PyStr.re_split s) = PyStr.re_split s \/ PyStr.re_split s = []).
      { destruct (PyStr.re_split s); [now right|now left]. }
      destruct H as [->| ->]; reflexivity.
    + rewrite <- IH. destruct (PyStr.re_split s) as [|t ts]; simpl;
        rewrite ?append_assoc; reflexivity.
Qed.

(** The normalisation of the code yields the normal form of the design. *)
Lemma normalize_refines (method : string) : normalize method = normalize_spec method.
Proof.
  unfold normalize, normalize_spec. rewrite <- re_split_words.
  destruct (PyStr.re_split (PyStr.lower method)); reflexivity.
Qed.

Lemma lower_ascii_idem (c : ascii) :
  PyStr.lower_ascii (PyStr.lower_ascii c) = PyStr.lower_ascii c.
Proof. destruct c as [[] [] [] [] [] [] [] []]; reflexivity. Qed.

Lemma all_chars_lower (s : string) :
  all_chars (fun c => Ascii.eqb (PyStr.lower_ascii c) c) (PyStr.lower s) = true.
Proof.
  induction s as [|c s IH]; simpl; [reflexivity|].
  now rewrite lower_ascii_idem, Ascii.eqb_refl, IH.
Qed.

Lemma all_chars_app (P : ascii -> bool) (s t : string) :
  all_chars P (s ++ t) = all_chars P s && all_chars P t.
Proof. induction s as [|c s IH]; simpl; [reflexivity|now rewrite IH, andb_assoc]. Qed.

(** Every word of a lower-cased name is a non-empty run of plain characters. *)
Lemma words_plain (cur s : string) :
  all_chars plain cur = true ->
  all_chars (fun c => Ascii.eqb (PyStr.lower_ascii c) c) s = true ->
  Forall (fun w => all_chars plain w = true /\ w <> "") (words_from cur s).
Proof.
  revert cur. induction s as [|c s IH]; intros cur Hcur Hs; simpl.
  - destruct cur; simpl; repeat constructor; auto. discriminate.
  - simpl in Hs. apply andb_true_iff in Hs. destruct Hs as [Hc Hs].
    destruct (PyStr.is_delim c) eqn:Hd.
    + destruct cur; simpl; [now apply IH|].
      constructor; [split; [assumption|discriminate]|now apply IH].
    + apply IH; [|assumption].
      rewrite all_chars_app, Hcur. simpl. unfold plain. now rewrite Hd, Hc.
Qed.

Lemma words_from_app (cur w s : string) :
  all_chars plain w = true -> words_from cur (w ++ s) = words_from (cur ++ w) s.
Proof.
  revert cur. induction w as [|c w IH]; intros cur Hw; simpl.
  - now rewrite append_empty_r.
  - simpl in Hw. apply andb_true_iff in Hw. destruct Hw as [Hc Hw].
    unfold plain in Hc. apply andb_true_iff in Hc. destruct Hc as [Hd _].
    apply negb_true_iff in Hd. rewrite Hd, IH by assumption.
    now rewrite append_assoc.
Qed.

Lemma lower_plain (w : string) : all_chars plain w = true -> PyStr.lower w = w.
Proof.
  induction w as [|c w IH]; simpl; [reflexivity|].
  intros H. apply andb_true_iff in H. destruct H as [Hc Hw].
  unfold plain in Hc. apply andb_true_iff in Hc. destruct Hc as [_ Hc].
  apply Ascii.eqb_eq in Hc. now rewrite Hc, IH.
Qed.

Lemma lower_app (s t : string) : PyStr.lower (s ++ t) = PyStr.lower s ++ PyStr.lower t.
Proof. induction s as [|c s IH]; simpl; [reflexivity|now rewrite IH]. Qed.

(** Joining plain words with hyphens and reading the words back gives the
    same words; the joined name is already in lower case. *)
Lemma join_words (W : list string) :
  Forall (fun w => all_chars plain w = true /\ w <> "") W ->
  words_from "" (PyStr.join "-" W) = W /\ PyStr.lower (PyStr.join "-" W) = PyStr.join "-" W.
Proof.
  induction 1 as [|w W [Hw Hne] HW [IHw IHl]]; [split; reflexivity|].
  assert (Hnw : PyStr.nonempty w = true) by (destruct w; [contradiction|reflexivity]).
  destruct W as [|w' W].
  - simpl. split; [|now apply lower_plain].
    rewrite <- (append_empty_r w) at 1. rewrite words_from_app by assumption.
    simpl. now rewrite Hnw.
  - change (PyStr.join "-" (w :: w' :: W)) with (w ++ "-" ++ PyStr.join "-" (w' :: W)).
    remember (PyStr.join "-" (w' :: W)) as J eqn:HJ.
    split.
    + rewrite words_from_app by assumption. simpl. rewrite Hnw. now rewrite IHw.
    + rewrite lower_app, lower_plain by assumption. simpl. now rewrite IHl.
Qed.

Lemma normalize_idempotent (method : string) : normalize (normalize method) = normalize method.
Proof.
  rewrite (normalize_refines (normalize method)), (normalize_refines method).
  unfold normalize_spec.
  destruct (join_words (words_from "" (PyStr.lower method))) as [Hw Hl].
  { apply words_plain; [reflexivity|apply all_chars_lower]. }
  now rewrite Hl, Hw.
Qed.

Context (E : services).
Variables (fuel sfuel : nat) (tol : R) (max_num_steps : Z) (kw : kwargs).

(** C8. The normalisation is the one the design describes: the lower-cased
    name is cut at hyphens, spaces and parentheses, empty pieces are dropped
    and the rest is joined by hyphens.  A normal form is its own normal
    form, and [optimize] treats two names with the same normal form alike,
    ["ODT  (block diagonal)"] and ["odt-block-diagonal"] among them. *)
Theorem normalization_equivalence (a b : string) (st : state) :
  normalize a = normalize_spec a
  /\ normalize (normalize a) = normalize a
  /\ normalize "ODT  (block diagonal)" = "odt-block-diagonal"
  /\ normalize "odt-block-diagonal" = "odt-block-diagonal"
  /\ (normalize a = normalize b ->
      optimize E fuel sfuel a tol max_num_steps kw st
      = optimize E fuel sfuel b tol max_num_steps kw st)
  /\ optimize E fuel sfuel "ODT  (block diagonal)" tol max_num_steps kw st
     = optimize E fuel sfuel "odt-block-diagonal" tol max_num_steps kw st.
Proof.
  repeat split.
  - apply normalize_refines.
  - apply normalize_idempotent.
  - intros H. unfold optimize. now rewrite H.
Qed.

End Normalization.
(** ** Runs on concrete meshes *)

(** Evaluates the array arithmetic of a run on concrete numbers. *)
Ltac eval_arrays :=
  repeat (progress (cbn; try unfold dot, vsub, vadd, vscale; cbn; decide_comparisons)).

Lemma closed_services_at_rest (proposal : mesh -> list vec) (r : R) (m : mesh) :
  at_rest (closed_services proposal r) proposal m.
Proof.
  intros i Hi. left. simpl. rewrite nth_error_map.
  destruct (nth_error (points m) i) eqn:H; [reflexivity|].
  apply nth_error_None in H. lia.
Qed.

Lemma closed_services_well_shaped (proposal : mesh -> list vec) (r : R) (kw : kwargs)
    (m : mesh) :
  length (proposal m) = length (points m) ->
  valid_cells m ->
  kw_boundary_step kw = None ->
  well_shaped (closed_services proposal r) proposal kw m.
Proof.
  intros Hp Hv Hb. unfold well_shaped. simpl. rewrite !length_map, Hb. auto.
Qed.

Lemma valid_tilted_triangle : valid_cells tilted_triangle.
Proof. unfold valid_cells. simpl. repeat constructor. Qed.

Lemma valid_unit_square : valid_cells unit_square.
Proof. unfold valid_cells. simpl. repeat constructor. Qed.

(** C3 as worded fails once an implicit surface is configured: a boundary
    vertex off the surface is projected onto it. *)
Lemma boundary_freeze_counterexample :
  let E := closed_services points (/ sqrt 6) in
  let kw := Kwargs None None None false None (Some plane_z) None None in
  let st := initial tilted_triangle in
  kw_boundary_step kw = None
  /\ nth_error (is_boundary_point E (st_mesh st)) 0 = Some true
  /\ nth_error (points (st_mesh st)) 0 = Some [0; 0; 1]
  /\ exists l st',
       iteration E points 1.0e-10 10 kw 5 1 st = (Ok l, st')
       /\ nth_error (points (st_mesh st')) 0 <> Some [0; 0; 1].
Proof.
  intros E kw st. repeat split.
  assert (Hws : well_shaped E points kw tilted_triangle).
  { apply closed_services_well_shaped; auto using valid_tilted_triangle. }
  destruct (at_rest_array_steps E points kw 5 tilted_triangle Hws eq_refl
              (closed_services_at_rest points _ _)) as (d & Has & _).
  rewrite iteration_unfold. cbv zeta.
  change (st_mesh st) with tilted_triangle. rewrite Has.
  unfold kw, arg_implicit_surface_tol. eval_arrays.
  eexists. eexists. split; [reflexivity|].
  simpl. intros [= H]. lra.
Qed.


Lemma closed_services_well_behaved (proposal : mesh -> list vec) (r : R) (kw : kwargs) :
  (forall m, length (proposal m) = length (points m)) ->
  kw_boundary_step kw = None ->
  well_behaved (closed_services proposal r) proposal kw.
Proof.
  intros Hp Hb m Hv. split; [now apply closed_services_well_shaped|].
  split; [exact Hv|reflexivity].
Qed.

Lemma open_services_well_shaped (proposal : mesh -> list vec) (r : R) (kw : kwargs)
    (m : mesh) :
  length (proposal m) = length (points m) ->
  valid_cells m ->
  kw_boundary_step kw = None ->
  well_shaped (open_services proposal r) proposal kw m.
Proof.
  intros Hp Hv Hb. unfold well_shaped. simpl. rewrite !length_map, Hb. auto.
Qed.


(** C5 as worded fails on the hand-over branch: [optimize] returns [None],
    not a pair. *)
Lemma return_contract_counterexample :
  exists st',
    optimize (closed_services points (/ 4)) 10 10 "ODT (BFGS)" 1.0e-10 10 no_kwargs
      (initial unit_square) = (Ok PyNone, st')
    /\ forall k r, PyNone <> PyPair k r.
Proof.
  eexists. split; [|discriminate].
  unfold optimize. simpl. rewrite odt_branch_eq. simpl. reflexivity.
Qed.

(** ** Rounding, overflow and division by zero *)

Section Rounding.

Import Floats.

#[local] Set Warnings "-inexact-float".


(** A tolerance whose square is rounded to zero admits no step, not even
    the zero step. *)
Lemma tolerance_test_rounding :
  (1e-200 * 1e-200 = 0)%float
  /\ Binary64.all_below_tol 1e-200%float [0%float] = false
  /\ Binary64.all_below_tol 1e-150%float [0%float] = true.
Proof. repeat split; vm_compute; reflexivity. Qed.

(** Line 138 at a vanishing gradient: the quotient is infinite, the point
    becomes not-a-number, and so does any field value computed from it,
    which the test of line 132 lets pass. *)
Lemma zero_gradient_pass :
  exists x y,
    Binary64.newton_pass [[1; 2]]%float [[0; 0]]%float [0.5]%float = [[x; y]]
    /\ is_nan x = true
    /\ is_nan y = true
    /\ Binary64.off_surface 1e-10%float [x + y]%float = false.
Proof. do 2 eexists. repeat split; vm_compute; reflexivity. Qed.


End Rounding.

(** ** The statements at concrete inputs *)

Lemma odt_routing_witness :
  normalize "ODT (BFGS)" = ("odt-" ++ "bfgs")%string
  /\ "bfgs"%string <> "fixed-point"%string
  /\ optimize (closed_services points (/ 4)) 10 10 "ODT (BFGS)" 1.0e-10 10 no_kwargs
       (initial unit_square)
     = odt_branch (closed_services points (/ 4)) "bfgs" 1.0e-10 10 no_kwargs
         (initial unit_square).
Proof.
  split; [reflexivity|]. split; [discriminate|].
  destruct (proj1 (odt_routing (closed_services points (/ 4)) 10 10 1.0e-10 10 no_kwargs
                     "ODT (BFGS)" (initial unit_square)) "bfgs"%string eq_refl)
    as [H _]; [discriminate|exact H].
Defined.

Lemma normalization_equivalence_witness :
  normalize "ODT  (block diagonal)" = normalize "odt-block-diagonal"
  /\ optimize (closed_services points (/ 4)) 10 10 "ODT  (block diagonal)" 1.0e-10 10
       no_kwargs (initial unit_square)
     = optimize (closed_services points (/ 4)) 10 10 "odt-block-diagonal" 1.0e-10 10
         no_kwargs (initial unit_square).
Proof.
  split; [reflexivity|].
  apply (proj1 (proj2 (proj2 (proj2 (proj2
           (normalization_equivalence (closed_services points (/ 4)) 10 10 1.0e-10 10
              no_kwargs "ODT  (block diagonal)" "odt-block-diagonal"
              (initial unit_square))))))).
  reflexivity.
Defined.



Lemma boundary_freeze_witness :
  let E := closed_services push_right (/ 4) in
  well_shaped E push_right no_kwargs unit_square
  /\ exists l st',
       iteration E push_right 1.0e-10 10 no_kwargs 0 1 (initial unit_square) = (Ok l, st')
       /\ nth_error (points (st_mesh st')) 2 = Some [1; 1].
Proof.
  intros E.
  assert (Hws : well_shaped E push_right no_kwargs unit_square).
  { apply closed_services_well_shaped; auto using valid_unit_square. }
  split; [exact Hws|].
  destruct (boundary_freeze E push_right 1.0e-10 10 no_kwargs 0 1 (initial unit_square)
              Hws eq_refl eq_refl (fun m' => eq_refl)) as (l & st' & Hit & _ & Hfix).
  exists l, st'. split; [exact Hit|].
  apply (Hfix 2%nat [1; 1]); reflexivity.
Defined.



Lemma return_contract_witness :
  let E := closed_services push_right (/ 4) in
  dict_get methods (normalize "Laplace") = Some laplace
  /\ exists k r st',
       optimize E 10 0 "Laplace" 1.0e-10 10 no_kwargs (initial unit_square)
       = (Ok (PyPair k r), st').
Proof.
  intros E. split; [reflexivity|].
  apply (proj2 (proj2 (return_contract E 10 0 1.0e-10 10 no_kwargs "Laplace"
                         (initial unit_square))) laplace).
  - reflexivity.
  - apply closed_services_well_behaved; [|reflexivity].
    intros m. unfold push_right. apply length_map.
  - apply valid_unit_square.
  - discriminate.
  - reflexivity.
  - vm_compute. lia.
Defined.


(** * Further properties *)

(** ** Names: [get_new_points] and [optimize] *)

Section Names.

Context (E : services).
Variables (fuel sfuel : nat) (tol : R) (max_num_steps : Z) (kw : kwargs).

Open Scope string_scope.

(** Every key of the registry is its own normal form. *)
Lemma registry_keys_normal (nm : string) (s : strategy) :
  dict_get methods nm = Some s ->
  PyStr.join "-" (filter PyStr.nonempty (PyStr.re_split nm)) = nm.
Proof.
  intros H. apply dict_get_In in H. simpl in H.
  repeat (destruct H as [H|H]; [injection H as <- <-; reflexivity|]).
  contradiction.
Qed.

(** X1. A name that [get_new_points] accepts is accepted by [optimize] too,
    and for the same strategy: its lower-cased form is a key of the
    registry, every key is its own normal form, and no key takes the
    hand-over branch.  [get_new_points] itself asks that strategy once and
    leaves the mesh as it is. *)
Theorem get_new_points_agrees (method : string) (s : strategy) (st : state) :
  dict_get methods (PyStr.lower method) = Some s ->
  get_new_points E method st
  = (Ok (get_new_points_of E s (st_mesh st)),
     State (st_mesh st) (st_log st ++ [get_new_points_call (st_mesh st)]))
  /\ normalize method = PyStr.lower method
  /\ optimize E fuel sfuel method tol max_num_steps kw st
     = bind (_optimize E (get_new_points_of E s) tol max_num_steps kw fuel sfuel)
         (fun r => ret (PyPair (fst r) (snd r))) st.
Proof.
  intros H.
  assert (Hn : normalize method = PyStr.lower method).
  { unfold normalize. eapply registry_keys_normal. exact H. }
  split; [|split; [exact Hn|]].
  - unfold get_new_points. rewrite H. reflexivity.
  - unfold optimize. rewrite Hn.
    rewrite (registry_names_reach_driver _ _ H), H. reflexivity.
Qed.

Lemma has_char_lower (c : ascii) (s : string) :
  PyStr.lower_ascii c = c -> has_char c s = true -> has_char c (PyStr.lower s) = true.
Proof.
  intros Hc. induction s as [|c' s IH]; simpl; [discriminate|].
  intros H. apply orb_true_iff in H. destruct H as [H|H].
  - apply Ascii.eqb_eq in H. subst c'. now rewrite Hc, Ascii.eqb_refl.
  - rewrite (IH H). apply orb_true_r.
Qed.

(** X2. [get_new_points] only lower-cases the name: when the lower-cased
    name is no key it raises [KeyError] and touches neither mesh nor trace,
    and that is so for every name with a space or a parenthesis in it, the
    spellings that [optimize] would normalise. *)
Theorem get_new_points_unnormalised (method : string) (st : state) :
  (dict_get methods (PyStr.lower method) = None ->
   get_new_points E method st = (Raise KeyError, st))
  /\ (forall c,
        (c = " " \/ c = "(" \/ c = ")")%char ->
        has_char c method = true ->
        get_new_points E method st = (Raise KeyError, st)).
Proof.
  assert (Hnone : dict_get methods (PyStr.lower method) = None ->
                  get_new_points E method st = (Raise KeyError, st)).
  { intros H. unfold get_new_points. now rewrite H. }
  split; [exact Hnone|].
  intros c Hc Hin. apply Hnone.
  assert (Hlow : has_char c (PyStr.lower method) = true).
  { apply has_char_lower; [|exact Hin]. destruct Hc as [->|[->| ->]]; reflexivity. }
  destruct (dict_get methods (PyStr.lower method)) as [s|] eqn:Hs; [|reflexivity].
  exfalso. apply dict_get_In in Hs. revert Hlow.
  generalize dependent (PyStr.lower method). intros nm Hs. simpl in Hs.
  repeat (destruct Hs as [Hs|Hs];
          [injection Hs as <- <-; destruct Hc as [->|[->| ->]]; discriminate|]).
  contradiction.
Qed.

(** X3. A name that does not take the hand-over branch and whose normal
    form is no key of the registry makes [optimize] raise [KeyError] before
    anything is done: mesh and trace are untouched. *)
Theorem unknown_method (method : string) (st : state) :
  PyStr.slice_to 3 (normalize method) <> "odt"
  \/ PyStr.slice_from 4 (normalize method) = "fixed-point" ->
  dict_get methods (normalize method) = None ->
  optimize E fuel sfuel method tol max_num_steps kw st = (Raise KeyError, st).
Proof.
  intros Hbranch Hnone. unfold optimize. rewrite Hnone.
  destruct Hbranch as [H|H].
  - destruct (String.eqb_spec (PyStr.slice_to 3 (normalize method)) "odt");
      [contradiction|reflexivity].
  - rewrite H. simpl. rewrite andb_false_r. reflexivity.
Qed.

(** X4. The test of line 37 looks at the first three characters and at the
    characters from the fifth on; the fourth is not inspected.  A normal
    form ["odt"], or ["odt"] followed by any character and a remainder other
    than ["fixed-point"], is handed to the external optimiser with that
    remainder (the empty string for ["odt"]); ["odt"], a character other
    than a hyphen and ["fixed-point"] is looked up and raises [KeyError]. *)
Theorem odt_fourth_character (method : string) (st : state) :
  (normalize method = "odt" ->
   optimize E fuel sfuel method tol max_num_steps kw st
   = odt_branch E "" tol max_num_steps kw st)
  /\ (forall c rest,
        normalize method = "odt" ++ String c rest ->
        rest <> "fixed-point" ->
        optimize E fuel sfuel method tol max_num_steps kw st
        = odt_branch E rest tol max_num_steps kw st)
  /\ (forall c,
        normalize method = "odt" ++ String c "fixed-point" ->
        c <> "-"%char ->
        optimize E fuel sfuel method tol max_num_steps kw st = (Raise KeyError, st)).
Proof.
  split; [|split].
  - intros H. unfold optimize. rewrite H. reflexivity.
  - intros c rest H Hrest. unfold optimize. rewrite H. simpl.
    destruct (String.eqb_spec rest "fixed-point"); [contradiction|reflexivity].
  - intros c H Hc. unfold optimize. rewrite H.
    change (PyStr.slice_from 4 ("odt" ++ String c "fixed-point")) with "fixed-point".
    rewrite String.eqb_refl. cbn [negb]. rewrite andb_false_r.
    destruct (dict_get methods ("odt" ++ String c "fixed-point")) as [s|] eqn:Hs;
      [|reflexivity].
    exfalso. apply dict_get_In in Hs. simpl in Hs.
    repeat (destruct Hs as [Hs|Hs]; [try discriminate|]); [|contradiction].
    injection Hs as Heq _. now apply Hc.
Qed.

Lemma is_delim_lower (c : ascii) : PyStr.is_delim (PyStr.lower_ascii c) = PyStr.is_delim c.
Proof. destruct c as [[] [] [] [] [] [] [] []]; reflexivity. Qed.

Lemma all_chars_impl (P Q : ascii -> bool) (s : string) :
  (forall c, P c = true -> Q c = true) -> all_chars P s = true -> all_chars Q s = true.
Proof.
  intros HPQ. induction s as [|c s IH]; simpl; [reflexivity|].
  intros H. apply andb_true_iff in H. destruct H as [Hc Hs].
  now rewrite (HPQ c Hc), IH.
Qed.

Lemma all_chars_join (Q : ascii -> bool) (W : list string) :
  Q "-"%char = true ->
  Forall (fun w => all_chars Q w = true) W ->
  all_chars Q (PyStr.join "-" W) = true.
Proof.
  intros Hq. induction 1 as [|w W Hw HW IH]; [reflexivity|].
  destruct W as [|w' W]; [exact Hw|].
  change (PyStr.join "-" (w :: w' :: W)) with (w ++ "-" ++ PyStr.join "-" (w' :: W)).
  rewrite all_chars_app, Hw. simpl. rewrite Hq. exact IH.
Qed.

(** X5. A normal form is a list of words joined by single hyphens; each
    word is non-empty and made of characters that are no delimiters and that
    lower-casing leaves alone.  So a normal form holds no character that is
    a delimiter other than the hyphen, or that lower-casing would change:
    no space, no parenthesis, no upper-case letter. *)
Theorem normal_form_shape (method : string) :
  (exists W,
      normalize method = PyStr.join "-" W
      /\ Forall (fun w => all_chars plain w = true /\ w <> "") W)
  /\ all_chars (fun c => plain c || Ascii.eqb c "-") (normalize method) = true
  /\ (forall c, plain c = false -> c <> "-"%char ->
        has_char c (normalize method) = false).
Proof.
  assert (HW : Forall (fun w => all_chars plain w = true /\ w <> "")
                 (words_from "" (PyStr.lower method))).
  { apply words_plain; [reflexivity|apply all_chars_lower]. }
  assert (Hall : all_chars (fun c => plain c || Ascii.eqb c "-") (normalize method) = true).
  { rewrite normalize_refines. unfold normalize_spec. apply all_chars_join; [reflexivity|].
    eapply Forall_impl; [|exact HW]. intros w [Hw _].
    eapply all_chars_impl; [|exact Hw]. intros c Hc. now rewrite Hc. }
  split; [|split; [exact Hall|]].
  - exists (words_from "" (PyStr.lower method)). split; [apply normalize_refines|exact HW].
  - intros c Hc Hhyphen. revert Hall. generalize (normalize method). intros nm.
    induction nm as [|c' nm IH]; simpl; [reflexivity|].
    intros H. apply andb_true_iff in H. destruct H as [Hc' Hnm].
    rewrite (IH Hnm), orb_false_r.
    destruct (Ascii.eqb_spec c c') as [<-|]; [|reflexivity].
    rewrite Hc in Hc'. simpl in Hc'. apply Ascii.eqb_eq in Hc'. contradiction.
Qed.

Lemma words_from_swap (x y cur : string) (d1 d2 : ascii) :
  PyStr.is_delim d1 = true -> PyStr.is_delim d2 = true ->
  words_from cur (x ++ String d1 y) = words_from cur (x ++ String d2 y).
Proof.
  intros H1 H2. revert cur. induction x as [|c x IH]; intros cur; simpl.
  - now rewrite H1, H2.
  - destruct (PyStr.is_delim c); [destruct (PyStr.nonempty cur)|]; now rewrite IH.
Qed.

Lemma words_from_twice (x y cur : string) (d1 d2 : ascii) :
  PyStr.is_delim d1 = true -> PyStr.is_delim d2 = true ->
  words_from cur (x ++ String d1 (String d2 y)) = words_from cur (x ++ String d1 y).
Proof.
  intros H1 H2. revert cur. induction x as [|c x IH]; intros cur; simpl.
  - now rewrite H1, H2.
  - destruct (PyStr.is_delim c); [destruct (PyStr.nonempty cur)|]; now rewrite IH.
Qed.

Lemma words_from_end (x cur : string) (d : ascii) :
  PyStr.is_delim d = true ->
  words_from cur (x ++ String d "") = words_from cur x.
Proof.
  intros Hd. revert cur. induction x as [|c x IH]; intros cur; simpl.
  - rewrite Hd. now destruct (PyStr.nonempty cur).
  - destruct (PyStr.is_delim c); [destruct (PyStr.nonempty cur)|]; now rewrite IH.
Qed.

(** X6. Hyphens, spaces and parentheses are interchangeable in a name: one
    delimiter may stand for another, a run of delimiters counts as one, and
    delimiters at either end are ignored. *)
Theorem delimiters_interchangeable (a b : string) (d1 d2 : ascii) :
  PyStr.is_delim d1 = true -> PyStr.is_delim d2 = true ->
  normalize (a ++ String d1 b) = normalize (a ++ String d2 b)
  /\ normalize (a ++ String d1 (String d2 b)) = normalize (a ++ String d1 b)
  /\ normalize (String d1 a) = normalize a
  /\ normalize (a ++ String d1 "") = normalize a.
Proof.
  intros H1 H2.
  assert (L1 : PyStr.is_delim (PyStr.lower_ascii d1) = true) by now rewrite is_delim_lower.
  assert (L2 : PyStr.is_delim (PyStr.lower_ascii d2) = true) by now rewrite is_delim_lower.
  rewrite !normalize_refines. unfold normalize_spec.
  rewrite !lower_app. simpl. repeat split; f_equal.
  - now apply words_from_swap.
  - now apply words_from_twice.
  - now rewrite L1.
  - now apply words_from_end.
Qed.

End Names.

(** ** Shapes and failures of one pass *)

Lemma zip_with_length_min {A B C : Type} (g : A -> B -> C) (xs : list A) (ys : list B) :
  length (zip_with g xs ys) = Nat.min (length xs) (length ys).
Proof.
  revert ys. induction xs as [|x xs IH]; intros [|y ys]; simpl; try reflexivity.
  now rewrite IH.
Qed.

Lemma minimum_at_length (idx : list nat) (vals : list R) (a b : list ext) :
  minimum_at a idx vals = Ok b -> length b = length a.
Proof.
  revert vals a. induction idx as [|i idx IH]; intros [|v vals] a; simpl; try discriminate.
  - now intros [= <-].
  - destruct (nth_error a i) as [x|]; [|discriminate].
    intros H. apply IH in H. now rewrite update_length in H.
Qed.

Lemma project_length (sfuel : nat) (surf : surface) (t : R) (pts pts' : list vec)
    (fval : list R) :
  project sfuel surf t pts fval = Ok pts' -> length pts' = length pts.
Proof.
  revert pts fval. induction sfuel as [|sfuel IH]; intros pts fval; simpl.
  - destruct (existsb _ _); [discriminate|]. now intros [= <-].
  - destruct (existsb _ _); [|now intros [= <-]].
    destruct (_ && _) eqn:Hshape; [|discriminate].
    apply andb_true_iff in Hshape. destruct Hshape as [H1 H2].
    apply Nat.eqb_eq in H1. apply Nat.eqb_eq in H2.
    intros H. apply IH in H. rewrite H.
    rewrite !zip_with_length_min. unfold einsum_ij_ij_i.
    rewrite zip_with_length_min. lia.
Qed.



Section Passes.

Context (E : services).
Variables (get_new_points : mesh -> list vec) (tol : R) (max_num_steps : Z) (kw : kwargs).

Lemma array_steps_lengths (sfuel : nat) (m : mesh) (np : list vec) (idx : list bool)
    (inr : list R) (d P : list vec) :
  array_steps kw sfuel m np idx inr = Ok (d, P) ->
  length d = length (points m) /\ length P = length (points m).
Proof.
  unfold array_steps.
  destruct (boundary_handling _ _ _ _) as [proposal| |]; simpl; try discriminate.
  destruct (step_vector _ _ _) as [u| |] eqn:Hu; simpl; try discriminate.
  destruct (max_step_of _ _) as [bound| |] eqn:Hb; simpl; try discriminate.
  assert (Hlu : length u = length (points m)).
  { unfold step_vector in Hu. destruct (Nat.eqb_spec (length proposal) (length (points m)));
      [|discriminate]. injection Hu as <-. now rewrite zip_with_length. }
  assert (Hlb : length bound = length (points m)).
  { unfold max_step_of in Hb. destruct (minimum_at _ _ _) as [a| |] eqn:Ha; try discriminate.
    simpl in Hb. injection Hb as <-. apply minimum_at_length in Ha.
    now rewrite length_map, Ha, repeat_length. }
  assert (Hld : length (clamp bound u) = length (points m)).
  { rewrite clamp_length; congruence. }
  assert (Hlp : length (zip_with vadd (points m) (clamp bound u)) = length (points m)).
  { rewrite zip_with_length; congruence. }
  destruct (kw_implicit_surface kw) as [surf|]; simpl.
  - destruct (project _ _ _ _ _) as [P'| |] eqn:HP; simpl; try discriminate.
    intros [= <- <-]. apply project_length in HP. split; congruence.
  - intros [= <- <-]. split; assumption.
Qed.

Lemma iteration_shapes (sfuel : nat) (k : Z) (st : state) (l : locals) (st' : state) :
  iteration E get_new_points tol max_num_steps kw sfuel k st = (Ok l, st') ->
  exists P,
    st_mesh st' = flip_until_delaunay E (Mesh P (cells (st_mesh st)))
    /\ length P = length (points (st_mesh st))
    /\ length (diff l) = length (points (st_mesh st))
    /\ length (diff_norm_2 l) = length (points (st_mesh st)).
Proof.
  rewrite iteration_unfold. cbv zeta.
  destruct (array_steps _ _ _ _ _ _) as [[d P]| |] eqn:Has; simpl; try discriminate.
  intros [= <- <-]. simpl.
  destruct (array_steps_lengths _ _ _ _ _ _ _ Has) as [Hd HP].
  exists P. repeat split; try assumption.
  unfold einsum_ij_ij_i. rewrite zip_with_length; congruence.
Qed.

(** X8. A pass that completes keeps one position per vertex: the clamped
    step and the array of squared lengths have one row per vertex, the
    points written back are as many as before, also after the projection
    onto an implicit surface, and the cells handed to the Delaunay flips are
    those of the mesh before the pass. *)
Theorem pass_keeps_vertex_count (sfuel : nat) (k : Z) (st : state) (l : locals)
    (st' : state) :
  iteration E get_new_points tol max_num_steps kw sfuel k st = (Ok l, st') ->
  exists P,
    st_mesh st' = flip_until_delaunay E (Mesh P (cells (st_mesh st)))
    /\ length P = length (points (st_mesh st))
    /\ length (diff l) = length (points (st_mesh st))
    /\ length (diff_norm_2 l) = length (points (st_mesh st)).
Proof.
  rewrite iteration_unfold. cbv zeta.
  destruct (array_steps _ _ _ _ _ _) as [[d P]| |] eqn:Has; simpl; try discriminate.
  intros [= <- <-]. simpl.
  destruct (array_steps_lengths _ _ _ _ _ _ _ Has) as [Hd HP].
  exists P. repeat split; try assumption.
  unfold einsum_ij_ij_i. rewrite zip_with_length; congruence.
Qed.



End Passes.

(** ** Whole runs of the driver *)

Section Runs.

Context (E : services).
Variables (get_new_points : mesh -> list vec) (tol : R) (max_num_steps : Z) (kw : kwargs).

Lemma run_cap (sfuel : nat) (k0 : Z) (st : state) (k : Z) (l : locals) (st' : state) :
  run E get_new_points tol max_num_steps kw sfuel k0 st k l st' ->
  (k <= Z.max (k0 + 1) max_num_steps)%Z.
Proof.
  induction 1 as [k0 st l st' Hit Hfin|k0 st l1 st1 k l st' Hit Hfin Hrun IH]; [lia|].
  pose proof (iteration_final_at_cap _ _ _ _ _ _ _ _ _ _ Hit Hfin). lia.
Qed.

Lemma run_vertex_count (sfuel : nat) (k0 : Z) (st : state) (k : Z) (l : locals)
    (st' : state) :
  (forall m, length (points (flip_until_delaunay E m)) = length (points m)) ->
  run E get_new_points tol max_num_steps kw sfuel k0 st k l st' ->
  length (points (st_mesh st')) = length (points (st_mesh st)).
Proof.
  intros Hflip.
  induction 1 as [k0 st l st' Hit Hfin|k0 st l1 st1 k l st' Hit Hfin Hrun IH].
  - destruct (iteration_shapes _ _ _ _ _ _ _ _ _ _ Hit) as (P & -> & HP & _).
    now rewrite Hflip.
  - destruct (iteration_shapes _ _ _ _ _ _ _ _ _ _ Hit) as (P & Hm & HP & _).
    rewrite IH, Hm, Hflip. exact HP.
Qed.



(** X11. With [tol = 0] no step is ever below the tolerance, so a run that
    returns has made exactly [max(1, max_num_steps)] passes. *)
Theorem zero_tolerance_runs_to_cap (fuel sfuel : nat) (st : state) (k : Z) (r : R)
    (st' : state) :
  tol = 0 ->
  _optimize E get_new_points tol max_num_steps kw fuel sfuel st = (Ok (k, r), st') ->
  k = Z.max 1 max_num_steps.
Proof.
  intros Htol. rewrite optimize_unfold.
  destruct (while_true _ _ _ _ _ _ _ _ _) as [[[k0 l]|e|t] st1] eqn:Hw; try discriminate.
  simpl. destruct (np_max _) as [r0| |] eqn:Hmax; try discriminate.
  intros [= <- <- <-].
  pose proof (while_true_run _ _ _ _ _ _ _ _ _ _ _ _ Hw) as Hrun.
  pose proof (run_cap _ _ _ _ _ _ Hrun) as Hcap.
  destruct (run_last_pass _ _ _ _ _ _ _ _ _ _ _ Hrun) as (Hlt & Hfin & st_prev & Hit).
  destruct (iteration_locals _ _ _ _ _ _ _ _ _ _ Hit) as [Hdn Hf].
  assert (Htest : forallb (fun x => Rltb x (tol ^ 2)) (diff_norm_2 l) = false).
  { destruct (diff_norm_2 l) as [|x rest]; [discriminate|].
    destruct (diff l) as [|d ds]; [discriminate|].
    simpl in Hdn. injection Hdn as -> _. simpl.
    rewrite Rltb_false; [reflexivity|].
    subst tol. pose proof (dot_self_nonneg d). lra. }
  rewrite Hf, Htest in Hfin. simpl in Hfin. apply Z.leb_le in Hfin. lia.
Qed.

(** X12. A mesh at rest stays at rest: when every vertex is a boundary
    point or is proposed where it already is, the incircle radii are not
    negative, no [boundary_step] and no implicit surface is configured, and
    [tol] is between [1e-150] and [1e150] in absolute value (or at most
    [1e150], when at most one pass is allowed), the driver returns after one
    pass with residual 0 and with every vertex where it was.  (Delaunay
    flips do not move vertices.  The square of a smaller [tol] can be
    rounded to zero, and then no step is below it: see
    [tolerance_test_rounding]; the square of a larger one can overflow.) *)
Theorem fixed_point_run (fuel sfuel : nat) (st : state) :
  let m0 := flip_until_delaunay E (st_mesh st) in
  well_shaped E get_new_points kw m0 ->
  Forall (fun r => 0 <= r) (cell_inradius E m0) ->
  kw_boundary_step kw = None ->
  kw_implicit_surface kw = None ->
  at_rest E get_new_points m0 ->
  points m0 <> [] ->
  Rabs tol <= 1.0e150 ->
  1.0e-150 <= Rabs tol \/ (max_num_steps <= 1)%Z ->
  (forall m, points (flip_until_delaunay E m) = points m) ->
  exists st',
    _optimize E get_new_points tol max_num_steps kw (S fuel) sfuel st = (Ok (1%Z, 0), st')
    /\ points (st_mesh st') = points (st_mesh st).
Proof.
  intros m0 Hws _ Hb Hsurf Hrest Hne _ Hfinal Hflip.
  destruct (at_rest_array_steps E get_new_points kw sfuel m0 Hws Hb Hrest)
    as (d & Has & Hzero & _).
  rewrite optimize_unfold. simpl. unfold bind.
  rewrite iteration_unfold. cbv zeta.
  change (st_mesh (prelude_state E kw st)) with m0.
  rewrite Has, Hsurf. simpl. rewrite Hzero.
  assert (Hfin : forallb (fun x => Rltb x (tol * (tol * 1)))
                   (map (fun _ : vec => 0) (points m0))
                 || (max_num_steps <=? 1)%Z = true).
  { destruct Hfinal as [Ht|Hn].
    - apply orb_true_iff. left. apply forallb_forall. intros x Hx.
      apply in_map_iff in Hx. destruct Hx as (_ & <- & _).
      apply Rltb_true.
      assert (Hnz : tol <> 0).
      { intros ->. rewrite Rabs_R0 in Ht. lra. }
      assert (0 < tol * tol) by nra. lra.
    - apply orb_true_iff. right. now apply Z.leb_le. }
  rewrite Hfin. simpl.
  assert (Hmax : np_max (map sqrt (map (fun _ : vec => 0) (points m0))) = Ok 0).
  { destruct (points m0) as [|p ps]; [contradiction|]. simpl. f_equal.
    rewrite sqrt_0. clear. induction ps as [|q ps IH]; simpl; [reflexivity|].
    rewrite sqrt_0, Rmax_left by lra. exact IH. }
  rewrite Hmax. eexists. split; [reflexivity|].
  simpl. rewrite Hflip. simpl. unfold m0. apply Hflip.
Qed.

Lemma report_tags (k : Z) (fin : bool) (m : mesh) :
  map tag_of (report_events kw k fin m)
  = (if fin && arg_verbose kw then [t_print_final k] else [])
    ++ (if truthy (kw_step_filename_format kw) then [t_save k] else [])
    ++ (if kw_callback kw then [t_callback k] else []).
Proof.
  unfold report_events.
  destruct (fin && arg_verbose kw), (truthy _), (kw_callback kw); reflexivity.
Qed.

Lemma iteration_tags (sfuel : nat) (k : Z) (st : state) (l : locals) (st' : state) :
  iteration E get_new_points tol max_num_steps kw sfuel k st = (Ok l, st') ->
  map tag_of (st_log st') = map tag_of (st_log st) ++ pass_tags kw k (is_final l).
Proof.
  rewrite iteration_unfold. cbv zeta.
  destruct (array_steps _ _ _ _ _ _) as [[d P]| |]; simpl; try discriminate.
  intros [= <- <-]. simpl.
  rewrite !map_app. simpl. rewrite report_tags, <- app_assoc. reflexivity.
Qed.

Lemma run_tags (sfuel : nat) (k0 : Z) (st : state) (k : Z) (l : locals) (st' : state) :
  run E get_new_points tol max_num_steps kw sfuel k0 st k l st' ->
  map tag_of (st_log st')
  = map tag_of (st_log st) ++ passes_tags kw k0 (Z.to_nat (k - k0)).
Proof.
  induction 1 as [k0 st l st' Hit Hfin|k0 st l1 st1 k l st' Hit Hfin Hrun IH].
  - rewrite (iteration_tags _ _ _ _ _ Hit), Hfin.
    replace (Z.to_nat (k0 + 1 - k0)) with 1%nat by lia. reflexivity.
  - pose proof (run_last_pass _ _ _ _ _ _ _ _ _ _ _ Hrun) as (Hlt & _).
    rewrite IH, (iteration_tags _ _ _ _ _ Hit), Hfin, <- app_assoc.
    destruct (Z.to_nat (k - (k0 + 1))) as [|n] eqn:Hn; [lia|].
    replace (Z.to_nat (k - k0)) with (S (S n)) by lia. reflexivity.
Qed.

(** X13. Of a run that returns, the calls of [print_stats], [mesh.save],
    the callback, [flip_until_delaunay] and the strategy (the calls that the
    trace records) are fixed, in kind, pass number and order, by the options
    and the number [k] of passes: the report, the snapshot and the callback
    of lines 70-82 (each if configured) and a flip; then for each pass
    1, ..., [k] a call of the strategy, a flip, the final report (last pass
    only, if verbose), the snapshot of the pass and the callback with the
    pass number.  None of these calls is skipped, repeated or made out of
    turn.  (What the mesh is asked for its boundary points and incircle
    radii, and the calls of [boundary_step] and of the implicit surface, are
    not recorded.) *)
Theorem driver_trace (fuel sfuel : nat) (st : state) (k : Z) (r : R) (st' : state) :
  _optimize E get_new_points tol max_num_steps kw fuel sfuel st = (Ok (k, r), st') ->
  map tag_of (st_log st')
  = map tag_of (st_log st) ++ prelude_tags kw ++ passes_tags kw 0 (Z.to_nat k).
Proof.
  intros Hopt.
  destruct (optimize_returns _ _ _ _ _ _ _ _ _ _ _ Hopt) as (l & Hrun & _).
  rewrite (run_tags _ _ _ _ _ _ Hrun), Z.sub_0_r, app_assoc. f_equal.
  unfold prelude_state, prelude_tags. simpl. rewrite !map_app.
  destruct (arg_verbose kw), (truthy _), (kw_callback kw); reflexivity.
Qed.

End Runs.

(** ** Callbacks, snapshots and the array entry point *)

Section Observers.

Context (E : services).
Variables (get_new_points : mesh -> list vec) (tol : R) (max_num_steps : Z) (kw : kwargs).

Lemma callbacks_of_app (t1 t2 : list tag) :
  callbacks_of (t1 ++ t2) = callbacks_of t1 ++ callbacks_of t2.
Proof. unfold callbacks_of. apply flat_map_app. Qed.

Lemma saves_of_app (t1 t2 : list tag) : saves_of (t1 ++ t2) = saves_of t1 ++ saves_of t2.
Proof. unfold saves_of. apply flat_map_app. Qed.

Lemma pass_observers (k : Z) (fin : bool) :
  callbacks_of (pass_tags kw k fin) = (if kw_callback kw then [k] else [])
  /\ saves_of (pass_tags kw k fin)
     = (if truthy (kw_step_filename_format kw) then [k] else []).
Proof.
  unfold pass_tags.
  destruct (fin && arg_verbose kw), (truthy _), (kw_callback kw); split; reflexivity.
Qed.

Lemma passes_observers (k0 : Z) (n : nat) :
  callbacks_of (passes_tags kw k0 n)
  = (if kw_callback kw then map (fun i => (k0 + Z.of_nat i)%Z) (seq 1 n) else [])
  /\ saves_of (passes_tags kw k0 n)
     = (if truthy (kw_step_filename_format kw)
        then map (fun i => (k0 + Z.of_nat i)%Z) (seq 1 n) else []).
Proof.
  revert k0. induction n as [|n IH]; intros k0.
  - simpl. now destruct (kw_callback kw), (truthy _).
  - assert (Hstep : forall fin,
      callbacks_of (pass_tags kw (k0 + 1) fin ++ passes_tags kw (k0 + 1) n)
      = (if kw_callback kw
         then map (fun i => (k0 + Z.of_nat i)%Z) (seq 1 (S n)) else [])
      /\ saves_of (pass_tags kw (k0 + 1) fin ++ passes_tags kw (k0 + 1) n)
         = (if truthy (kw_step_filename_format kw)
            then map (fun i => (k0 + Z.of_nat i)%Z) (seq 1 (S n)) else [])).
    { intros fin. rewrite callbacks_of_app, saves_of_app.
      destruct (pass_observers (k0 + 1) fin) as [-> ->].
      destruct (IH (k0 + 1)%Z) as [-> ->].
      assert (Hseq : map (fun i => (k0 + Z.of_nat i)%Z) (seq 1 (S n))
                     = (k0 + 1)%Z :: map (fun i => (k0 + 1 + Z.of_nat i)%Z) (seq 1 n)).
      { simpl. f_equal. rewrite <- seq_shift, map_map. apply map_ext. intros i. lia. }
      rewrite Hseq. now destruct (kw_callback kw), (truthy _). }
    destruct n as [|n].
    + specialize (Hstep true). simpl passes_tags in Hstep at 1 2.
      rewrite !app_nil_r in Hstep. exact Hstep.
    + exact (Hstep false).
Qed.

(** X14. When a callback is configured, a run that returns with counter [k]
    has called it exactly [k + 1] times, with the pass numbers 0, 1, ...,
    [k] in this order; the same holds for the snapshots when
    [step_filename_format] is a non-empty string.  Without them (an empty
    format string counts as none) no callback is made and no snapshot is
    saved. *)
Theorem observers_see_every_pass (fuel sfuel : nat) (st : state) (k : Z) (r : R)
    (st' : state) :
  _optimize E get_new_points tol max_num_steps kw fuel sfuel st = (Ok (k, r), st') ->
  st_log st = [] ->
  callbacks_of (map tag_of (st_log st'))
  = (if kw_callback kw then map Z.of_nat (seq 0 (S (Z.to_nat k))) else [])
  /\ saves_of (map tag_of (st_log st'))
     = (if truthy (kw_step_filename_format kw)
        then map Z.of_nat (seq 0 (S (Z.to_nat k))) else []).
Proof.
  intros Hopt Hlog.
  destruct (optimize_returns _ _ _ _ _ _ _ _ _ _ _ Hopt) as (l & Hrun & _).
  rewrite (run_tags _ _ _ _ _ _ _ _ _ _ _ Hrun), Z.sub_0_r.
  assert (Hpre : map tag_of (st_log (prelude_state E kw st)) = prelude_tags kw).
  { unfold prelude_state, prelude_tags. cbn [st_log]. rewrite Hlog. cbn [app].
    rewrite !map_app.
    destruct (arg_verbose kw), (truthy _), (kw_callback kw); reflexivity. }
  rewrite Hpre, callbacks_of_app, saves_of_app.
  destruct (passes_observers 0 (Z.to_nat k)) as [-> ->].
  rewrite (map_ext (fun i => (0 + Z.of_nat i)%Z) Z.of_nat) by (intros; lia).
  change (seq 0 (S (Z.to_nat k))) with (0%nat :: seq 1 (Z.to_nat k)).
  unfold prelude_tags.
  destruct (arg_verbose kw), (truthy _), (kw_callback kw); split; reflexivity.
Qed.

End Observers.

Section Arrays.

Context (E : services).
Variables (fuel sfuel : nat) (tol : R) (max_num_steps : Z) (kw : kwargs).

Open Scope string_scope.

(** X7. [optimize_points_cells] hands back the arrays of the mesh it built,
    whatever [optimize] returned: on the hand-over branch, where [optimize]
    returns [None], they are the arrays left by the external optimiser; a
    name that is unknown raises [KeyError] with nothing added to the trace;
    and for a name of the registry the returned point array has as many rows
    as the array passed in, Delaunay flips keeping the number of points. *)
Theorem optimize_points_cells_returns_arrays (X : list vec) (c : list (nat * nat * nat))
    (method : string) (log : list event) :
  (PyStr.slice_to 3 (normalize method) = "odt" ->
   PyStr.slice_from 4 (normalize method) <> "fixed-point" ->
   kw_omega kw = None ->
   optimize_points_cells E fuel sfuel X c method tol max_num_steps kw log
   = (Ok (points (nonlinear_optimization E (Mesh X c)
                    (PyStr.slice_from 4 (normalize method)) tol max_num_steps kw),
          cells (nonlinear_optimization E (Mesh X c)
                   (PyStr.slice_from 4 (normalize method)) tol max_num_steps kw)),
      (log ++ [nonlinear_optimization_call (PyStr.slice_from 4 (normalize method))
                 tol max_num_steps kw])%list))
  /\ ((PyStr.slice_to 3 (normalize method) <> "odt"
       \/ PyStr.slice_from 4 (normalize method) = "fixed-point") ->
      dict_get methods (normalize method) = None ->
      optimize_points_cells E fuel sfuel X c method tol max_num_steps kw log
      = (Raise KeyError, log))
  /\ (forall s X' c' log',
        dict_get methods (normalize method) = Some s ->
        (forall m, length (points (flip_until_delaunay E m)) = length (points m)) ->
        optimize_points_cells E fuel sfuel X c method tol max_num_steps kw log
        = (Ok (X', c'), log') ->
        length X' = length X).
Proof.
  split; [|split].
  - intros H3 H4 Hom. unfold optimize_points_cells, optimize. rewrite H3.
    destruct (String.eqb_spec (PyStr.slice_from 4 (normalize method)) "fixed-point");
      [contradiction|].
    simpl. rewrite odt_branch_eq, Hom. reflexivity.
  - intros Hbranch Hnone. unfold optimize_points_cells, optimize. rewrite Hnone.
    destruct Hbranch as [H|H].
    + destruct (String.eqb_spec (PyStr.slice_to 3 (normalize method)) "odt");
        [contradiction|reflexivity].
    + rewrite H. simpl. rewrite andb_false_r. reflexivity.
  - intros s X' c' log' Hs Hflip. unfold optimize_points_cells, optimize.
    rewrite (registry_names_reach_driver _ _ Hs), Hs. unfold bind.
    destruct (_optimize _ _ _ _ _ _ _ _) as [[[k r]|e|t] st1] eqn:Hopt;
      simpl; try discriminate.
    intros [= <- _ _].
    destruct (optimize_returns _ _ _ _ _ _ _ _ _ _ _ Hopt) as (l & Hrun & _).
    rewrite (run_vertex_count _ _ _ _ _ _ _ _ _ _ _ Hflip Hrun).
    unfold prelude_state. simpl. now rewrite Hflip.
Qed.

End Arrays.

(** ** The boundary step and the clamp *)

Lemma mask_select_assign {A : Type} (mask : list bool) (a vals : list A) :
  length mask = length a -> length vals = count_true mask ->
  mask_select mask (mask_assign mask a vals) = vals.
Proof.
  revert a vals. induction mask as [|b mask IH]; intros [|x a] vals; simpl; try discriminate.
  - intros _ H. now destruct vals.
  - intros [= Ha]. destruct b; simpl.
    + destruct vals as [|v vals]; [discriminate|]. intros [= Hv].
      f_equal. now apply IH.
    + intros Hv. now apply IH.
Qed.

Lemma nth_error_mask_assign_false {A : Type} (mask : list bool) (a vals : list A) (i : nat) :
  nth_error mask i = Some false ->
  nth_error (mask_assign mask a vals) i = nth_error a i.
Proof.
  revert a vals i. induction mask as [|b mask IH]; intros a vals i; [now destruct i|].
  destruct a as [|x a]; [now destruct b|].
  destruct i as [|i]; simpl.
  - intros [= ->]. reflexivity.
  - intros H. destruct b; [destruct vals|]; simpl; now apply IH.
Qed.

(** X15. With a [boundary_step] configured, the rows of the proposal at the
    boundary points are the rows that [boundary_step] returns for the
    proposed boundary rows, in order; the rows of all other vertices are
    those of the strategy; and the current positions play no part. *)
Theorem boundary_step_rows (g : list vec -> list vec) (idx : list bool)
    (np cur proposal : list vec) :
  boundary_handling (Some g) idx np cur = Ok proposal ->
  mask_select idx proposal = g (mask_select idx np)
  /\ (forall i, nth_error idx i = Some false -> nth_error proposal i = nth_error np i)
  /\ length proposal = length np
  /\ forall cur', boundary_handling (Some g) idx np cur' = Ok proposal.
Proof.
  unfold boundary_handling.
  destruct (Nat.eqb_spec (length idx) (length np)) as [Hlen|]; [|discriminate].
  destruct (Nat.eqb_spec (length (g (mask_select idx np))) (count_true idx)) as [Hg|];
    [|discriminate].
  intros [= <-]. repeat split.
  - now apply mask_select_assign.
  - intros i Hi. now apply nth_error_mask_assign_false.
  - apply mask_assign_length.
Qed.

Section Clamp.

Context (E : services).
Variables (get_new_points : mesh -> list vec) (tol : R) (max_num_steps : Z) (kw : kwargs).

(** X16. The clamp only shortens: on a mesh with non-negative incircle
    radii every row of the clamped step is the row of the unclamped step
    times a factor between 0 and 1, so it is never longer and never points
    the other way. *)
Theorem clamp_only_shortens (sfuel : nat) (k : Z) (st : state) :
  let m := st_mesh st in
  well_shaped E get_new_points kw m ->
  Forall (fun r => 0 <= r) (cell_inradius E m) ->
  exists proposal u,
    boundary_handling (kw_boundary_step kw) (is_boundary_point E m)
      (get_new_points m) (points m) = Ok proposal
    /\ step_vector (arg_omega kw) proposal (points m) = Ok u
    /\ forall l st',
         iteration E get_new_points tol max_num_steps kw sfuel k st = (Ok l, st') ->
         length (diff l) = length u
         /\ forall i ui di,
              nth_error u i = Some ui -> nth_error (diff l) i = Some di ->
              (exists c, 0 <= c <= 1 /\ di = vscale c ui) /\ norm di <= norm ui.
Proof.
  intros m Hws Hpos.
  destruct (array_steps_ok E get_new_points kw sfuel m Hws)
    as (proposal & u & bound & Hp & Hu & Hb & _ & Hlu & Hlb & Hlc & Has).
  destruct Hws as (_ & _ & Hr & Hvalid & _).
  destruct (max_step_of_spec m _ Hvalid Hr) as (bound' & Hb' & _ & Hspec).
  rewrite Hb in Hb'. injection Hb' as <-.
  exists proposal, u. split; [exact Hp|]. split; [exact Hu|].
  intros l st'. rewrite iteration_unfold. cbv zeta. fold m. rewrite Has.
  intros Hit.
  assert (Hd : diff l = clamp bound u).
  { destruct (kw_implicit_surface kw) as [surf|]; simpl in Hit.
    - destruct (project _ _ _ _ _); simpl in Hit; try discriminate.
      now injection Hit as <- _.
    - now injection Hit as <- _. }
  rewrite Hd. split; [congruence|].
  intros i ui di Hui Hdi. rewrite nth_error_clamp, Hui in Hdi.
  destruct (nth_error bound i) as [b|] eqn:Hbi; [|discriminate].
  injection Hdi as <-.
  assert (Hnn : forall x, b = Fin x -> 0 <= x).
  { intros x ->. apply (nonneg_bound m _ i x Hpos). apply Hspec. exact Hbi. }
  destruct (clamp_row_factor b ui Hnn) as (c & Hc & Heq).
  split; [now exists c|].
  rewrite Heq, norm_vscale by lra. pose proof (norm_nonneg ui). nra.
Qed.

End Clamp.

(** ** The order of the cells *)

Lemma In_combine_nth {A B : Type} (l1 : list A) (l2 : list B) (a : A) (b : B) :
  In (a, b) (combine l1 l2)
  <-> exists j, nth_error l1 j = Some a /\ nth_error l2 j = Some b.
Proof.
  revert l2. induction l1 as [|x l1 IH]; intros [|y l2]; simpl.
  - split; [contradiction|]. intros (j & H & _). now destruct j.
  - split; [contradiction|]. intros (j & H & _). now destruct j.
  - split; [contradiction|]. intros (j & _ & H). now destruct j.
  - rewrite IH. split.
    + intros [[= -> ->]|(j & H1 & H2)]; [now exists 0%nat|now exists (S j)].
    + intros ([|j] & H1 & H2); simpl in *.
      * left. congruence.
      * right. now exists j.
Qed.

Lemma incident_inradius_combine (m : mesh) (inr : list R) (i : nat) (r : R) :
  incident_inradius m inr i r
  <-> exists c, In (c, r) (combine (cells m) inr) /\ incident i c.
Proof.
  unfold incident_inradius. split.
  - intros (j & c & H1 & H2 & H3). exists c. split; [|exact H3].
    apply In_combine_nth. now exists j.
  - intros (c & Hin & H3). apply In_combine_nth in Hin. destruct Hin as (j & H1 & H2).
    now exists j, c.
Qed.

Lemma half_min_unique (m m' : mesh) (inr inr' : list R) (i : nat) (b b' : ext) :
  (forall r, incident_inradius m inr i r <-> incident_inradius m' inr' i r) ->
  half_min_inradius m inr i b -> half_min_inradius m' inr' i b' -> b = b'.
Proof.
  intros Heq. destruct b as [x|], b' as [y|]; simpl.
  - intros [(r & Hr & ->) Hall] [(r' & Hr' & ->) Hall'].
    apply Heq in Hr. apply Heq in Hr'.
    specialize (Hall r' Hr'). specialize (Hall' r Hr). f_equal. lra.
  - intros [(r & Hr & _) _] Hnone. apply Heq in Hr. now apply Hnone in Hr.
  - intros Hnone [(r & Hr & _) _]. apply Heq in Hr. now apply Hnone in Hr.
  - reflexivity.
Qed.

(** X20. The bound [max_step] does not depend on the order in which the
    cells are listed: two meshes with the same number of vertices whose
    cells, each with its incircle radius, are permutations of each other
    get the same bound at every vertex. *)
Theorem max_step_order_independent (m m' : mesh) (inr inr' : list R) :
  length (points m') = length (points m) ->
  length inr = length (cells m) ->
  length inr' = length (cells m') ->
  valid_cells m -> valid_cells m' ->
  Permutation (combine (cells m) inr) (combine (cells m') inr') ->
  exists bound, max_step_of m inr = Ok bound /\ max_step_of m' inr' = Ok bound.
Proof.
  intros Hn Hr Hr' Hv Hv' Hperm.
  destruct (max_step_of_spec m inr Hv Hr) as (b & Hb & Hlb & Hspec).
  destruct (max_step_of_spec m' inr' Hv' Hr') as (b' & Hb' & Hlb' & Hspec').
  exists b. split; [exact Hb|]. rewrite Hb'. f_equal.
  apply nth_error_ext. intros i.
  destruct (nth_error b i) as [x|] eqn:Hx, (nth_error b' i) as [y|] eqn:Hy.
  - f_equal. symmetry.
    apply (half_min_unique m m' inr inr' i x y); auto.
    intros r. rewrite !incident_inradius_combine. split; intros (c & Hin & Hinc);
      exists c; split; auto.
    + eapply Permutation_in; eassumption.
    + eapply Permutation_in; [apply Permutation_sym|]; eassumption.
  - apply nth_error_None in Hy. assert (nth_error b i <> None) by congruence.
    apply nth_error_Some in H. lia.
  - apply nth_error_None in Hx. assert (nth_error b' i <> None) by congruence.
    apply nth_error_Some in H. lia.
  - reflexivity.
Qed.

(** ** The further properties at concrete inputs *)

Lemma get_new_points_agrees_witness :
  dict_get methods (PyStr.lower "Lloyd") = Some cvt_lloyd
  /\ normalize "Lloyd" = PyStr.lower "Lloyd".
Proof.
  split; [reflexivity|].
  apply (get_new_points_agrees (closed_services points (/ 4)) 10 0 1.0e-10 10 no_kwargs
           "Lloyd" cvt_lloyd (initial unit_square)).
  reflexivity.
Defined.

Lemma get_new_points_unnormalised_witness :
  has_char " " "CVT (full)" = true
  /\ dict_get methods (normalize "CVT (full)") = Some cvt_full
  /\ get_new_points (closed_services points (/ 4)) "CVT (full)" (initial unit_square)
     = (Raise KeyError, initial unit_square).
Proof.
  split; [reflexivity|]. split; [reflexivity|].
  apply (proj2 (get_new_points_unnormalised (closed_services points (/ 4)) "CVT (full)"
                  (initial unit_square)) " "%char).
  - now left.
  - reflexivity.
Defined.

Lemma unknown_method_witness :
  PyStr.slice_to 3 (normalize "Gauss-Seidel") <> "odt"%string
  /\ dict_get methods (normalize "Gauss-Seidel") = None
  /\ optimize (closed_services points (/ 4)) 10 0 "Gauss-Seidel" 1.0e-10 10 no_kwargs
       (initial unit_square)
     = (Raise KeyError, initial unit_square).
Proof.
  split; [discriminate|]. split; [reflexivity|].
  apply unknown_method; [left; discriminate|reflexivity].
Defined.

Lemma odt_fourth_character_witness :
  normalize "ODT" = "odt"%string
  /\ optimize (closed_services points (/ 4)) 10 0 "ODT" 1.0e-10 10 no_kwargs
       (initial unit_square)
     = odt_branch (closed_services points (/ 4)) "" 1.0e-10 10 no_kwargs
         (initial unit_square).
Proof.
  split; [reflexivity|].
  apply (proj1 (odt_fourth_character (closed_services points (/ 4)) 10 0 1.0e-10 10
                  no_kwargs "ODT" (initial unit_square))).
  reflexivity.
Defined.

Lemma normal_form_shape_witness :
  plain "A" = false
  /\ "A"%char <> "-"%char
  /\ has_char "A" (normalize "ODT (Block Diagonal)") = false.
Proof.
  split; [reflexivity|]. split; [discriminate|].
  apply (proj2 (proj2 (normal_form_shape "ODT (Block Diagonal)")));
    [reflexivity|discriminate].
Defined.

Lemma delimiters_interchangeable_witness :
  PyStr.is_delim " " = true
  /\ PyStr.is_delim "-" = true
  /\ normalize ("cpt" ++ String " " "fixed point") = normalize ("cpt" ++ String "-" "fixed point").
Proof.
  split; [reflexivity|]. split; [reflexivity|].
  apply (delimiters_interchangeable "cpt" "fixed point" " " "-"); reflexivity.
Defined.

Lemma optimize_points_cells_returns_arrays_witness :
  let E := closed_services points (/ 4) in
  dict_get methods (normalize "laplace") = Some laplace
  /\ (forall m, length (points (flip_until_delaunay E m)) = length (points m))
  /\ exists X' c' log',
       optimize_points_cells E 10 0 (points unit_square) (cells unit_square) "laplace"
         1.0e-10 10 no_kwargs []
       = (Ok (X', c'), log')
       /\ length X' = length (points unit_square).
Proof.
  intros E. split; [reflexivity|]. split; [reflexivity|].
  destruct (at_rest_optimize E points 1.0e-10 10 no_kwargs 9 0 (initial unit_square))
    as [st' Hrun].
  - apply closed_services_well_shaped; auto using valid_unit_square.
  - reflexivity.
  - reflexivity.
  - apply closed_services_at_rest.
  - discriminate.
  - left. lra.
  - assert (Heq : optimize_points_cells E 10 0 (points unit_square) (cells unit_square)
                    "laplace" 1.0e-10 10 no_kwargs []
                  = (Ok (points (st_mesh st'), cells (st_mesh st')), st_log st')).
    { unfold optimize_points_cells, optimize.
      rewrite (registry_names_reach_driver (normalize "laplace") laplace eq_refl).
      change (dict_get methods (normalize "laplace")) with (Some laplace).
      unfold bind.
      change (_optimize E (get_new_points_of E laplace) 1.0e-10 10 no_kwargs 10 0
                (State (Mesh (points unit_square) (cells unit_square)) []))
        with (_optimize E points 1.0e-10 10 no_kwargs 10 0 (initial unit_square)).
      rewrite Hrun. reflexivity. }
    exists (points (st_mesh st')), (cells (st_mesh st')), (st_log st').
    split; [exact Heq|].
    apply (proj2 (proj2 (optimize_points_cells_returns_arrays E 10 0 1.0e-10 10 no_kwargs
                           (points unit_square) (cells unit_square) "laplace" []))
             laplace _ _ _ eq_refl (fun m => eq_refl) Heq).
Defined.

Lemma pass_keeps_vertex_count_witness :
  let E := closed_services push_right (/ 4) in
  exists l st',
    iteration E push_right 1.0e-10 10 no_kwargs 0 1 (initial unit_square) = (Ok l, st')
    /\ length (diff l) = 4%nat.
Proof.
  intros E.
  destruct (iteration_total E push_right 1.0e-10 10 no_kwargs 0 1 (initial unit_square))
    as (l & st' & Hit & _).
  - apply closed_services_well_behaved; [|reflexivity].
    intros m. unfold push_right. apply length_map.
  - apply valid_unit_square.
  - reflexivity.
  - exists l, st'. split; [exact Hit|].
    destruct (pass_keeps_vertex_count E push_right 1.0e-10 10 no_kwargs 0 1
                (initial unit_square) l st' Hit) as (P & _ & _ & Hd & _).
    exact Hd.
Defined.



Lemma zero_tolerance_runs_to_cap_witness :
  let E := closed_services points (/ 4) in
  exists st',
    _optimize E points 0 1 no_kwargs 1 0 (initial unit_square) = (Ok (1%Z, 0), st')
    /\ 1%Z = Z.max 1 1.
Proof.
  intros E.
  destruct (at_rest_optimize E points 0 1 no_kwargs 0 0 (initial unit_square))
    as [st' Hrun].
  - apply closed_services_well_shaped; auto using valid_unit_square.
  - reflexivity.
  - reflexivity.
  - apply closed_services_at_rest.
  - discriminate.
  - right. lia.
  - exists st'. split; [exact Hrun|].
    apply (zero_tolerance_runs_to_cap E points 0 1 no_kwargs 1 0 (initial unit_square)
             1 0 st' eq_refl Hrun).
Defined.

Lemma fixed_point_run_witness :
  let E := closed_services push_right (/ 4) in
  well_shaped E push_right no_kwargs unit_square
  /\ Forall (fun r => 0 <= r) (cell_inradius E unit_square)
  /\ at_rest E push_right unit_square
  /\ 1.0e-150 <= Rabs 1.0e-10 <= 1.0e150
  /\ exists st',
       _optimize E push_right 1.0e-10 10 no_kwargs 1 0 (initial unit_square)
       = (Ok (1%Z, 0), st')
       /\ points (st_mesh st') = points unit_square.
Proof.
  intros E.
  assert (Hws : well_shaped E push_right no_kwargs unit_square).
  { apply closed_services_well_shaped; auto using valid_unit_square. }
  assert (Hpos : Forall (fun r => 0 <= r) (cell_inradius E unit_square)).
  { simpl. repeat constructor; lra. }
  assert (Htol : 1.0e-150 <= Rabs 1.0e-10 <= 1.0e150).
  { rewrite Rabs_right by lra. lra. }
  split; [exact Hws|]. split; [exact Hpos|]. split; [apply closed_services_at_rest|].
  split; [exact Htol|].
  apply (fixed_point_run E push_right 1.0e-10 10 no_kwargs 0 0 (initial unit_square)).
  - exact Hws.
  - exact Hpos.
  - reflexivity.
  - reflexivity.
  - apply closed_services_at_rest.
  - discriminate.
  - exact (proj2 Htol).
  - left. exact (proj1 Htol).
  - reflexivity.
Defined.

Lemma driver_trace_witness :
  let E := closed_services points (/ 4) in
  let kw := Kwargs None None (Some true) true (Some "step{}.png"%string) None None None in
  exists st',
    _optimize E points 1.0e-10 10 kw 1 0 (initial unit_square) = (Ok (1%Z, 0), st')
    /\ map tag_of (st_log st')
       = [t_print_before; t_save 0; t_callback 0; t_flip;
          t_get_new_points; t_flip; t_print_final 1; t_save 1; t_callback 1].
Proof.
  intros E kw.
  destruct (at_rest_optimize E points 1.0e-10 10 kw 0 0 (initial unit_square))
    as [st' Hrun].
  - apply closed_services_well_shaped; auto using valid_unit_square.
  - reflexivity.
  - reflexivity.
  - apply closed_services_at_rest.
  - discriminate.
  - left. lra.
  - exists st'. split; [exact Hrun|].
    apply (driver_trace E points 1.0e-10 10 kw 1 0 (initial unit_square) 1 0 st' Hrun).
Defined.

Lemma observers_see_every_pass_witness :
  let E := closed_services points (/ 4) in
  let kw := Kwargs None None None true (Some ""%string) None None None in
  exists st',
    _optimize E points 1.0e-10 10 kw 1 0 (initial unit_square) = (Ok (1%Z, 0), st')
    /\ callbacks_of (map tag_of (st_log st')) = [0%Z; 1%Z]
    /\ saves_of (map tag_of (st_log st')) = [].
Proof.
  intros E kw.
  destruct (at_rest_optimize E points 1.0e-10 10 kw 0 0 (initial unit_square))
    as [st' Hrun].
  - apply closed_services_well_shaped; auto using valid_unit_square.
  - reflexivity.
  - reflexivity.
  - apply closed_services_at_rest.
  - discriminate.
  - left. lra.
  - exists st'. split; [exact Hrun|].
    apply (observers_see_every_pass E points 1.0e-10 10 kw 1 0 (initial unit_square)
             1 0 st' Hrun eq_refl).
Defined.

Lemma boundary_step_rows_witness :
  let g := map (fun p : vec => [0; nth 1 p 0]) in
  let idx := [true; false; true] in
  let np := [[1; 1]; [2; 2]; [3; 3]] in
  exists proposal,
    boundary_handling (Some g) idx np [] = Ok proposal
    /\ mask_select idx proposal = g (mask_select idx np)
    /\ nth_error proposal 1 = Some [2; 2].
Proof.
  intros g idx np. eexists. split; [reflexivity|].
  destruct (boundary_step_rows g idx np [] _ eq_refl) as (Hsel & Hrest & _).
  split; [exact Hsel|]. apply (Hrest 1%nat). reflexivity.
Defined.

Lemma clamp_only_shortens_witness :
  let E := open_services push_right (/ 4) in
  well_shaped E push_right no_kwargs unit_square
  /\ Forall (fun r => 0 <= r) (cell_inradius E unit_square)
  /\ exists proposal u,
       step_vector (arg_omega no_kwargs) proposal (points unit_square) = Ok u.
Proof.
  intros E.
  assert (Hws : well_shaped E push_right no_kwargs unit_square).
  { apply open_services_well_shaped; auto using valid_unit_square. }
  assert (Hpos : Forall (fun r => 0 <= r) (cell_inradius E unit_square)).
  { simpl. repeat constructor; lra. }
  split; [exact Hws|]. split; [exact Hpos|].
  destruct (clamp_only_shortens E push_right 1.0e-10 10 no_kwargs 0 1
              (initial unit_square) Hws Hpos) as (proposal & u & _ & Hu & _).
  now exists proposal, u.
Defined.

Lemma max_step_order_independent_witness :
  let m' := Mesh (points unit_square) [(0, 2, 3); (0, 1, 2)]%nat in
  exists bound,
    max_step_of unit_square [/ 4; / 8] = Ok bound
    /\ max_step_of m' [/ 8; / 4] = Ok bound.
Proof.
  intros m'.
  apply (max_step_order_independent unit_square m' [/ 4; / 8] [/ 8; / 4]);
    try reflexivity.
  - apply valid_unit_square.
  - unfold valid_cells. simpl. repeat constructor.
  - simpl. apply perm_swap.
Defined.
